(** * Mesh TensorFlow attention layers: a shallow embedding

    The development follows [mesh_tensorflow/layers.py] and
    [mesh_tensorflow/transformer/transformer_layers.py].

    Conventions.
    - Python integers are [Z]; tensor dimension sizes and tensor indices are
      [nat] (a [mtf.Dimension] has a non-negative size).
    - A tensor is a nested list whose innermost axis holds scalars.  Its
      static shape is carried next to it, as [mtf] does: every operation that
      builds a tensor is given the sizes of its output axes.
    - Tensor scalars are real numbers: float32 rounding is not modelled.
      Integer-valued float tensors ([mtf.range] with dtype float32) are
      compared as integers, which is exact below 2^24.
    - The exponential of the softmax is a parameter; where a property needs
      the weight of a masked position to vanish, the exponential is assumed
      to be 1 at 0, never negative and 0 below -5e8 (underflow), as
      [exp_underflow] is.
    - A Python exception is a [Raise] result. *)

From Stdlib Require Import ZArith Lia Reals Lra.
From stdpp Require Import base list strings.

Open Scope R_scope.

(** ** Python results *)

Inductive pyerror : Type :=
| ZeroDivisionError
| ValueError (msg : string).

Inductive pyresult (A : Type) : Type :=
| Ret (a : A)
| Raise (e : pyerror).

Arguments Ret {A} a.
Arguments Raise {A} e.

Definition bind {A B : Type} (m : pyresult A) (f : A -> pyresult B)
  : pyresult B :=
  match m with
  | Ret a => f a
  | Raise e => Raise e
  end.

(** ** Block partitioner

    [masked_local_attention_1d], layers.py lines 878-891:
<<
    if length_per_split is None:
      length_per_split = length.size
    block_length = max(window_size, 128)
    while length_per_split % block_length != 0:
      block_length -= 1
    ...
    num_blocks = mtf.Dimension(length.name, length.size // block_length)
>>
*)

Module BlockPartition.

(** The [while] loop.  The loop variable only decreases and the loop is
    entered with [block_length >= 128], so it is a natural number in every
    reachable state and the recursion is on it.  Reaching 0 would evaluate
    [length_per_split % 0]. *)
Fixpoint block_length_loop (length_per_split : Z) (block_length : nat)
  : pyresult Z :=
  match block_length with
  | O => Raise ZeroDivisionError
  | S b' =>
      if (length_per_split mod Z.of_nat block_length =? 0)%Z
      then Ret (Z.of_nat block_length)
      else block_length_loop length_per_split b'
  end.

Definition choose_block_length (window_size : Z) (length_size : Z)
    (length_per_split : option Z) : pyresult Z :=
  let length_per_split := default length_size length_per_split in
  block_length_loop length_per_split (Z.to_nat (Z.max window_size 128)).

(** [length.size // block_length] *)
Definition num_blocks (length_size block_length : Z) : Z :=
  (length_size / block_length)%Z.

End BlockPartition.

(** ** Tensors *)

Module Tensor.

(** [mtf.Dimension]: a named, sized axis; equality is by name and size. *)
Record Dimension : Type := mkDim { dim_name : string; dim_size : nat }.

Definition Shape : Type := list Dimension.

(** A tensor built from its shape: the entry at index [i] is [f i]. *)
Definition tab {A : Type} (n : nat) (f : nat -> A) : list A :=
  f <$> seq 0 n.

(** Reading a tensor; an index outside the shape reads as zero. *)
Definition get1 (t : list R) (i : nat) : R := default 0 (t !! i).
Definition row {A : Type} (t : list (list A)) (i : nat) : list A :=
  default [] (t !! i).
Definition get2 (t : list (list R)) (i j : nat) : R := get1 (row t i) j.
Definition get3 (t : list (list (list R))) (i j k : nat) : R :=
  get2 (row t i) j k.

Definition sum_list_R (l : list R) : R := foldr Rplus 0 l.

(** The sum of [f i] for [i] below [n]: a reduction over an axis of size
    [n]. *)
Definition sumR (n : nat) (f : nat -> R) : R := sum_list_R (tab n f).

(** The largest of [f i] for [i] below [n]: a maximum over an axis of size
    [n]; it is zero over an empty axis, where nothing reads it. *)
Definition maxR (n : nat) (f : nat -> R) : R :=
  match tab n f with
  | [] => 0
  | a :: l => foldr Rmax a l
  end.

(** [mtf.range(mesh, dim, dtype)] *)
Definition range (n : nat) : list Z := Z.of_nat <$> seq 0 n.

(** [mtf.cast] of a boolean tensor entry to a number. *)
Definition cast (b : bool) : R := if b then 1 else 0.

(** [mtf.zeros] on the last axis. *)
Definition zeros (n : nat) : list R := replicate n 0.

End Tensor.

(** ** Attention biases *)

Module Bias.
Import Tensor.

(** [attention_bias_local_block], layers.py lines 1403-1429.  The result has
    shape [[block_length, memory_length]], where [memory_length] is the
    concatenation of the two halves and so has twice the block size; the
    size of the [memory_length] argument is not used, only its name.  The
    two masks are int32 tensors, cast to float32 at the end. *)
Definition attention_bias_local_block (block_length memory_length : Dimension)
  : list (list R) :=
  let memory_length :=
    mkDim (dim_name memory_length) (dim_size block_length) in
  let memory_mask : list (list Z) :=
    tab (dim_size block_length)
      (fun _ => tab (dim_size memory_length) (fun _ => 0%Z)) in
  let mask : list (list Z) :=
    (fun q => (fun m => Z.b2z (q <? m)%Z) <$> range (dim_size memory_length))
      <$> range (dim_size block_length) in
  (fun r : list Z => (fun e => IZR e * -1e9) <$> r)
    <$> zip_with app memory_mask mask.

(** [local_1d_halo_exchange], layers.py lines 726-742, exchanges
    [w_dim.size] elements: the halo of [local_self_attention_spatial_blocks]
    is as long as the block. *)
Definition local_1d_halo_size (w_dim : Dimension) : nat := dim_size w_dim.

(** The mask of [masked_local_attention_1d], layers.py lines 902-909:
<<
    mpos = mtf.range(x.mesh, padded_memory_block_length, tf.float32)
    qpos = mtf.range(x.mesh, query_block_length, tf.float32) + window_size
    mask = mtf.cast(mtf.greater(mpos, qpos), x.dtype) * -1e9
    mask += mtf.cast(mtf.less_equal(mpos, qpos - block_length), x.dtype) * -1e9
>>
    The mask has shape [[memory_block_length, query_block_length]]: the
    memory position is the first index. *)
Definition local_attention_mask (window_size block_length : nat)
  : list (list R) :=
  let mpos := range (window_size + block_length) in
  let qpos := (fun p => p + Z.of_nat window_size)%Z <$> range block_length in
  let mask :=
    (fun m => (fun q => cast (m >? q)%Z * -1e9) <$> qpos) <$> mpos in
  zip_with (zip_with Rplus) mask
    ((fun m =>
        (fun q => cast (m <=? q - Z.of_nat block_length)%Z * -1e9) <$> qpos)
       <$> mpos).

End Bias.

(** ** Attention *)

Module Attention.
Import Tensor BlockPartition Bias.

(** The quadruple of [multihead_attention_params]: each tensor has shape
    [[heads, io_channels, kv_channels]]. *)
Record params : Type := mkParams {
  wq : list (list (list R));
  wk : list (list (list R));
  wv : list (list (list R));
  wo : list (list (list R))
}.

(** Python [base ** exponent] for an integer base and a negative float
    exponent: [0 ** -0.5] raises. *)
Definition py_pow (base : nat) (exponent : R) : pyresult R :=
  if (base =? 0)%nat then Raise ZeroDivisionError
  else Ret (Rpower (INR base) exponent).

(** The initializer standard deviations of [multihead_attention_params],
    layers.py lines 1123-1127, in the order q, k, v, o. *)
Definition multihead_attention_params_stddev (heads io_channels kv_channels : nat)
  : pyresult (R * R * R * R) :=
  bind (py_pow io_channels (-0.5)) (fun a =>
  bind (py_pow kv_channels (-0.25)) (fun b =>
  let qk_stddev := a * b in
  bind (py_pow io_channels (-0.5)) (fun v_stddev =>
  bind (py_pow (io_channels * heads) (-0.5)) (fun o_stddev =>
  Ret (qk_stddev, qk_stddev, v_stddev, o_stddev))))).

(** [logits = mtf.einsum([q, k], logits_shape)] followed by
    [logits += mask], layers.py lines 1174-1178, for one query position:
    [q] has shape [[depth_k]], [k] has shape [[length_kv, depth_k]] and the
    mask, when there is one, is read at the memory position. *)
Definition attention_logits (depth_k length_kv : nat)
    (q : list R) (k : list (list R)) (mask : option (nat -> R)) : list R :=
  let logits :=
    tab length_kv (fun j => sumR depth_k (fun d => get1 q d * get2 k j d)) in
  match mask with
  | Some m => tab length_kv (fun j => get1 logits j + m j)
  | None => logits
  end.

(** An exponential that underflows to zero, as the float32 one does far
    above this threshold, and is exact elsewhere.  [softmax] applies it to a
    logit minus the log-sum-exp of its axis. *)
Definition exp_underflow (z : R) : R :=
  if Rle_dec z (-5e8) then 0 else exp z.

Section Kernel.

(** The exponential used by [mtf.softmax]. *)
Variable fexp : R -> R.

(** Modelled from the spec: [mtf.reduce_logsumexp] (ops.py is not under
    src/) is the numerically stable log-sum-exp over an axis of size [n]:
    the largest logit is subtracted before the exponentials are taken and
    summed, and added back to the logarithm of the sum. *)
Definition reduce_logsumexp (n : nat) (logits : list R) : R :=
  let max_logit := maxR n (get1 logits) in
  ln (sumR n (fun j => fexp (get1 logits j - max_logit))) + max_logit.

(** Modelled from the spec: [mtf.softmax] (ops.py is not under src/) is the
    softmax over the [length_kv] axis with numerically stable log-sum-exp:
    each weight is the exponential of its logit minus the log-sum-exp of the
    axis, so that an exponential underflows relative to the largest logit.
    No [extra_logit] is passed by the callers below. *)
Definition softmax (n : nat) (logits : list R) : list R :=
  let log_z := reduce_logsumexp n logits in
  tab n (fun j => fexp (get1 logits j - log_z)).

(** [dot_product_attention], layers.py lines 1150-1187, for one query
    position (the leading dimensions and [length_q] are mapped over by the
    two definitions that follow); [dropout] is 0.0 at every call below. *)
Definition dot_product_attention_row (depth_k depth_v length_kv : nat)
    (q : list R) (k v : list (list R)) (mask : option (nat -> R)) : list R :=
  let logits := attention_logits depth_k length_kv q k mask in
  let weights := softmax length_kv logits in
  tab depth_v (fun d => sumR length_kv (fun j => get1 weights j * get2 v j d)).

(** The logit of the memory slot [j], written out: the contraction of the
    query with the key of the slot over the depth axis, plus the mask where
    there is one. *)
Definition slot_logit (depth_k : nat) (q : list R) (k : list (list R))
    (mask : option (nat -> R)) (j : nat) : R :=
  match mask with
  | Some m => sumR depth_k (fun c => get1 q c * get2 k j c) + m j
  | None => sumR depth_k (fun c => get1 q c * get2 k j c)
  end.

(** The log-sum-exp of logits given as a function of the slot. *)
Definition slots_logsumexp (n : nat) (a : nat -> R) : R :=
  ln (sumR n (fun j => fexp (a j - maxR n a))) + maxR n a.

Variables heads io_channels kv_channels : nat.

(** [dot_product_attention] on [q : [heads, kv_channels]],
    [k, v : [heads, length_kv, kv_channels]] and a mask of shape
    [[length_kv]]. *)
Definition dot_product_attention_step (length_kv : nat)
    (q : list (list R)) (k v : list (list (list R)))
    (mask : option (list R)) : list (list R) :=
  tab heads (fun h =>
    dot_product_attention_row kv_channels kv_channels length_kv
      (row q h) (row k h) (row v h) (get1 <$> mask)).

(** [dot_product_attention] on
    [q : [heads, num_blocks, query_block_length, kv_channels]],
    [k, v : [heads, num_blocks, memory_block_length, kv_channels]] and a mask
    of shape [[memory_block_length, query_block_length]]. *)
Definition dot_product_attention_blocks
    (num_blocks query_block_length memory_block_length : nat)
    (q k v : list (list (list (list R)))) (mask : list (list R))
  : list (list (list (list R))) :=
  tab heads (fun h =>
    tab num_blocks (fun b =>
      tab query_block_length (fun i =>
        dot_product_attention_row kv_channels kv_channels memory_block_length
          (row (row (row q h) b) i) (row (row k h) b) (row (row v h) b)
          (Some (fun j => get2 mask j i))))).

(** [mtf.einsum([x, w], mtf.Shape(batch_dims + [heads, kv_channels]))] for
    [x : [io_channels]]. *)
Definition einsum_x_w (x : list R) (w : list (list (list R)))
  : list (list R) :=
  tab heads (fun h =>
    tab kv_channels (fun d =>
      sumR io_channels (fun c => get1 x c * get3 w h c d))).

(** [mtf.einsum([x, w], mtf.Shape(batch_dims + [heads, length,
    kv_channels]))] for [x : [length, io_channels]]. *)
Definition einsum_xs_w (length : nat) (x : list (list R))
    (w : list (list (list R))) : list (list (list R)) :=
  tab heads (fun h =>
    tab length (fun l =>
      tab kv_channels (fun d =>
        sumR io_channels (fun c => get2 x l c * get3 w h c d)))).

(** [mtf.einsum([o, wo], x.shape)] for [o : [heads, kv_channels]]. *)
Definition einsum_o_wo (o : list (list R)) (w : list (list (list R)))
  : list R :=
  tab io_channels (fun c =>
    sumR heads (fun h =>
      sumR kv_channels (fun d => get2 o h d * get3 w h c d))).

(** [mtf.einsum([o, wo], mtf.Shape(batch_dims + [length, io_channels]))]
    for [o : [heads, length, kv_channels]]. *)
Definition einsum_os_wo (length : nat) (o : list (list (list R)))
    (w : list (list (list R))) : list (list R) :=
  tab length (fun l =>
    tab io_channels (fun c =>
      sumR heads (fun h =>
        sumR kv_channels (fun d => get3 o h l d * get3 w h c d)))).

(** Modelled from the spec: [mtf.reshape] (ops.py is not under src/)
    reinterprets the shape and keeps the order of the elements.  Here the
    length axis of [[heads, length, kv_channels]] is split into
    [[num_blocks, block_length]]. *)
Definition reshape_to_blocks (num_blocks block_length : nat)
    (t : list (list (list R))) : list (list (list (list R))) :=
  tab heads (fun h =>
    tab num_blocks (fun b =>
      tab block_length (fun i => row (row t h) (b * block_length + i)))).

(** The reshape back: [[num_blocks, block_length]] is merged into
    [length]. *)
Definition reshape_from_blocks (length block_length : nat)
    (t : list (list (list (list R)))) : list (list (list R)) :=
  tab heads (fun h =>
    tab length (fun l =>
      row (row (row t h) (l / block_length)) (l mod block_length))).

(** Modelled from the spec: [mtf.left_halo_exchange] (ops.py is not under
    src/) extends every block on the left by [halo_size] elements borrowed
    from the blocks to its left, zero-filled before the start of the
    sequence and never wrapped: slot [j] of the extended block [b] holds the
    element [halo_size - j] positions before the start of block [b]. *)
Definition left_halo_exchange (num_blocks block_length halo_size : nat)
    (t : list (list (list (list R)))) : list (list (list (list R))) :=
  tab heads (fun h =>
    tab num_blocks (fun b =>
      tab (halo_size + block_length) (fun j =>
        if (b * block_length + j <? halo_size)%nat then zeros kv_channels
        else
          let g := (b * block_length + j - halo_size)%nat in
          row (row (row t h) (g / block_length)) (g mod block_length)))).

(** [masked_local_attention_1d], layers.py lines 823-915, for
    [x : [length, io_channels]] (no batch dimensions) and given [params];
    [return_kv] is [None].  [mtf.reshape] keeps the number of elements, so
    the reshape of [[heads, length, kv_channels]] into blocks needs as many
    elements in the blocks as in the tensor. *)
Definition masked_local_attention_1d (length : nat) (x : list (list R))
    (window_size : nat) (length_per_split : option Z) (p : params)
  : pyresult (list (list R)) :=
  let q := einsum_xs_w length x (wq p) in
  let k := einsum_xs_w length x (wk p) in
  let v := einsum_xs_w length x (wv p) in
  bind (choose_block_length (Z.of_nat window_size) (Z.of_nat length)
          length_per_split) (fun block_length =>
  let n_blocks := Z.to_nat (num_blocks (Z.of_nat length) block_length) in
  let block_length := Z.to_nat block_length in
  if negb (heads * (n_blocks * block_length) * kv_channels
           =? heads * length * kv_channels)%nat
  then Raise (ValueError "reshape: sizes differ")
  else
    let q := reshape_to_blocks n_blocks block_length q in
    let k := reshape_to_blocks n_blocks block_length k in
    let v := reshape_to_blocks n_blocks block_length v in
    let k := left_halo_exchange n_blocks block_length window_size k in
    let v := left_halo_exchange n_blocks block_length window_size v in
    let mask := local_attention_mask window_size block_length in
    let o :=
      dot_product_attention_blocks n_blocks block_length
        (window_size + block_length) q k v mask in
    let o := reshape_from_blocks length block_length o in
    Ret (einsum_os_wo length o (wo p))).

(** [mtf.where(condition, k, prev_k, output_shape=prev_k.shape)] with the
    condition on the window axis, [k : [heads, kv_channels]] and
    [prev_k : [heads, window_length, kv_channels]]. *)
Definition where_position (window_length : nat) (condition : list bool)
    (k : list (list R)) (prev_k : list (list (list R)))
  : list (list (list R)) :=
  tab heads (fun h =>
    tab window_length (fun s =>
      if default false (condition !! s) then row k h
      else row (row prev_k h) s)).

(** [masked_local_attention_1d_incremental], layers.py lines 918-972, for
    [x : [io_channels]] and given [params]; [window_length] is read off the
    shape of [prev_k]. *)
Definition masked_local_attention_1d_incremental (window_length : nat)
    (x : list R) (prev_k prev_v : list (list (list R))) (step_num : Z)
    (p : params)
  : list R * list (list (list R)) * list (list (list R)) :=
  let q := einsum_x_w x (wq p) in
  let k := einsum_x_w x (wk p) in
  let v := einsum_x_w x (wv p) in
  let current_position :=
    (fun s => (s =? step_num mod Z.of_nat window_length)%Z)
      <$> range window_length in
  let k := where_position window_length current_position k prev_k in
  let v := where_position window_length current_position v prev_v in
  let o := dot_product_attention_step window_length q k v None in
  let y := einsum_o_wo o (wo p) in
  (y, k, v).

(** The zero-initialised decode state. *)
Definition zero_state (window_length : nat) : list (list (list R)) :=
  tab heads (fun _ => tab window_length (fun _ => zeros kv_channels)).

(** Sequential decoding: one incremental step per token, from step
    [step_num] on, threading the returned [new_k] and [new_v]. *)
Fixpoint decode (window_length : nat) (p : params) (xs : list (list R))
    (step_num : nat) (k v : list (list (list R))) : list (list R) :=
  match xs with
  | [] => []
  | x :: xs' =>
      let '(y, k', v') :=
        masked_local_attention_1d_incremental window_length x k v
          (Z.of_nat step_num) p in
      y :: decode window_length p xs' (S step_num) k' v'
  end.

(** The element [r] positions before position [p] of a tensor
    [t : [length, kv_channels]], and zero before the start of the
    sequence. *)
Definition lagged (t : list (list R)) (p r : nat) : list R :=
  if (r <=? p)%nat then row t (p - r) else zeros kv_channels.

(** The decode state [st] once step [step] is written: slot [s] holds the
    most recent position congruent to [s] modulo the window length, which
    lies [(step - s) mod window_length] positions before [step]; [t] is the
    tensor of all keys (or values), of shape
    [[heads, length, kv_channels]]. *)
Definition window_holds (window_length : nat) (t st : list (list (list R)))
    (step : nat) : Prop :=
  forall h s, (h < heads)%nat -> (s < window_length)%nat ->
    row (row st h) s =
      lagged (row t h) step ((step + window_length - s) mod window_length).

(** The decode state before step [step] is written: as [window_holds],
    except for the slot that the step overwrites. *)
Definition window_awaits (window_length : nat) (t st : list (list (list R)))
    (step : nat) : Prop :=
  forall h s, (h < heads)%nat -> (s < window_length)%nat ->
    s <> (step mod window_length)%nat ->
    row (row st h) s =
      lagged (row t h) step ((step + window_length - s) mod window_length).

(** Attention of the query at position [p] over the [window] most recent
    positions, in order of lag and without mask, for one head
    ([q, k, v : [length, kv_channels]]): what a decode step and a row of the
    blocked computation are compared to. *)
Definition lagged_attention (window : nat) (q k v : list (list R))
    (p : nat) : list R :=
  dot_product_attention_row kv_channels kv_channels window (row q p)
    (tab window (lagged k p)) (tab window (lagged v p)) None.

(** Modelled from the spec: [mtf.one_hot] (ops.py is not under src/) is 1 at
    the index and 0 elsewhere on the output axis; an index outside the axis
    selects nothing. *)
Definition one_hot (index : Z) (output_dim : nat) : list R :=
  (fun s => cast (s =? index)%Z) <$> range output_dim.

(** [multihead_self_attention_incremental], layers.py lines 1259-1320, for
    [query_antecedent : [io_channels]]; the four weight tensors are the
    variables the function creates. *)
Definition multihead_self_attention_incremental (memory_length : nat)
    (query_antecedent : list R) (prev_k prev_v : list (list (list R)))
    (step_num : Z) (p : params)
  : list R * list (list (list R)) * list (list (list R)) :=
  let memory_antecedent := query_antecedent in
  let q := einsum_x_w query_antecedent (wq p) in
  let k := einsum_x_w memory_antecedent (wk p) in
  let v := einsum_x_w memory_antecedent (wv p) in
  let k :=
    tab heads (fun h => tab memory_length (fun s => tab kv_channels (fun d =>
      get3 prev_k h s d
      + get2 k h d * get1 (one_hot step_num memory_length) s))) in
  let v :=
    tab heads (fun h => tab memory_length (fun s => tab kv_channels (fun d =>
      get3 prev_v h s d
      + get2 v h d * get1 (one_hot step_num memory_length) s))) in
  let mask :=
    (fun s => cast (s >? step_num)%Z * -1e9) <$> range memory_length in
  let o := dot_product_attention_step memory_length q k v (Some mask) in
  let y := einsum_o_wo o (wo p) in
  (y, k, v).

End Kernel.

End Attention.

(** ** Graph construction of [multihead_attention] *)

Module GraphConstruction.
Import Tensor.

#[global] Instance Dimension_eq_dec : EqDecision Dimension.
Proof. solve_decision. Defined.









End GraphConstruction.

(** ** Relative position buckets *)

Module RelativePosition.

(** [mtf.to_int32] of a float: the fractional part is dropped. *)
Definition to_int32 (x : R) : Z :=
  if Rlt_dec x 0 then Zceil x else Zfloor x.

(** Python [math.log]. *)
Definition math_log (x : R) : pyresult R :=
  if Rle_dec x 0 then Raise (ValueError "math domain error") else Ret (ln x).

(** Python true division of two integers. *)
Definition py_truediv (a b : Z) : pyresult R :=
  if (b =? 0)%Z then Raise ZeroDivisionError else Ret (IZR a / IZR b).

(** [_relative_position_bucket], transformer_layers.py lines 593-635, on one
    entry of the [relative_position] tensor.  A zero [max_exact] makes
    [max_distance / max_exact] raise; dividing the tensor by a zero
    [math.log] is taken to raise as well.  The large-distance value is
    computed for every entry and selected by [mtf.where]. *)
Definition _relative_position_bucket (relative_position : Z)
    (bidirectional : bool) (num_buckets max_distance : Z) : pyresult Z :=
  let ret := 0%Z in
  let n := (- relative_position)%Z in
  let '(num_buckets, ret, n) :=
    if bidirectional
    then
      let num_buckets := (num_buckets / 2)%Z in
      (num_buckets, (ret + Z.b2z (n <? 0)%Z * num_buckets)%Z, Z.abs n)
    else (num_buckets, ret, Z.max n 0) in
  let max_exact := (num_buckets / 2)%Z in
  let is_small := (n <? max_exact)%Z in
  bind (py_truediv max_distance max_exact) (fun ratio =>
  bind (math_log ratio) (fun log_ratio =>
  if Req_dec_T log_ratio 0 then Raise ZeroDivisionError
  else
    let val_if_large :=
      (max_exact
       + to_int32 (ln (IZR n / IZR max_exact) / log_ratio
                   * IZR (num_buckets - max_exact)))%Z in
    let val_if_large := Z.min val_if_large (num_buckets - 1) in
    Ret (ret + (if is_small then n else val_if_large))%Z)).

(** The value [mtf.where] selects for a distance [n] (the [n] of the comment
    "now n is in the range [0, inf)"), when nothing raises. *)
Definition bucket_of_distance (n num_buckets max_distance : Z) : Z :=
  let max_exact := (num_buckets / 2)%Z in
  if (n <? max_exact)%Z then n
  else
    Z.min
      (max_exact
       + to_int32 (ln (IZR n / IZR max_exact)
                   / ln (IZR max_distance / IZR max_exact)
                   * IZR (num_buckets - max_exact)))%Z
      (num_buckets - 1).

End RelativePosition.

(** ** Attention parameters of the Transformer layers *)

Module HeadParams.

(** The [query_heads_dims] or [memory_heads_dims] argument that
    [attention_params] passes to [attention.AttentionParams]: [None], or a
    list of dimensions given by name and size. *)
Definition heads_dims : Type := option (list (string * Z)).

(** [attention_params], transformer_layers.py lines 68-123: the pair
    [(query_heads_dims, memory_heads_dims)] handed to the constructor of
    [attention.AttentionParams], or the exception. *)
Definition attention_params (num_heads num_memory_heads : Z)
  : pyresult (heads_dims * heads_dims) :=
  if (num_heads =? 1)%Z then Ret (None, None)
  else if (num_memory_heads =? 0)%Z then
    let query_heads_dims := [("heads", num_heads)] in
    Ret (Some query_heads_dims, Some query_heads_dims)
  else if (num_memory_heads =? 1)%Z then
    Ret (Some [("heads", num_heads)], None)
  else if negb (num_heads mod num_memory_heads =? 0)%Z then
    Raise (ValueError "num_memory_heads must divide num_heads")
  else
    let memory_heads_dims := [("heads", num_memory_heads)] in
    let query_heads_dims :=
      memory_heads_dims
      ++ [("query_heads", (num_heads / num_memory_heads)%Z)] in
    Ret (Some query_heads_dims, Some memory_heads_dims).

(** The number of heads a list of head dimensions stands for: the product
    of the sizes, and one head when there is no head dimension. *)
Definition heads_count (dims : heads_dims) : Z :=
  match dims with
  | None => 1%Z
  | Some l => foldr Z.mul 1%Z (snd <$> l)
  end.

End HeadParams.

(** ** Memory-compressed attention *)

Module Compression.
Import Tensor Attention.

(** [compress_mean], layers.py lines 1556-1576, for [x : [length, channels]]
    compressed along the length axis (so [dims.index(dim)] finds it) by a
    non-negative factor.  [mtf.reshape] keeps the number of elements: the
    new shape [[length // factor, factor, channels]] needs as many elements
    as [[length, channels]]; [mtf.reduce_mean] divides the sum over the
    reduced axis by its size. *)
Definition compress_mean (length channels compression_factor : nat)
    (x : list (list R)) : pyresult (list (list R)) :=
  if (compression_factor =? 0)%nat then Raise ZeroDivisionError
  else
    let compressed := (length / compression_factor)%nat in
    if negb (compressed * compression_factor * channels
             =? length * channels)%nat
    then Raise (ValueError "reshape: sizes differ")
    else
      Ret (tab compressed (fun g =>
             tab channels (fun c =>
               sumR compression_factor (fun u =>
                 get2 x (g * compression_factor + u) c)
               / INR compression_factor))).



End Compression.

(** ** Losses and normalisation *)

Module Losses.
Import Tensor GraphConstruction.

(** A tensor of rank one: its only dimension and its values. *)
Record vector : Type := mkVector { vdim : Dimension; vvalues : list R }.

Definition vshape (v : vector) : Shape := [vdim v].

(** [softmax_cross_entropy_with_logits], layers.py lines 627-660, on tensors
    of rank one (one example).  [mtf.reduce_logsumexp] is the logarithm of
    the sum of the exponentials over the reduced dimension.  The message of
    the first error is kept up to the two shapes that the code prints after
    it. *)
Definition softmax_cross_entropy_with_logits (logits targets : vector)
    (vocab_dim : Dimension) (z_loss : R) : pyresult R :=
  if negb (bool_decide (vshape logits = vshape targets))
  then Raise (ValueError "logits shape must equal targets shape")
  else if negb (bool_decide (vocab_dim ∈ vshape logits))
  then Raise (ValueError "vocab_dim must be in logits.shape.dims")
  else
    let n := dim_size vocab_dim in
    let log_z := ln (sumR n (fun i => exp (get1 (vvalues logits) i))) in
    let loss :=
      - sumR n (fun i =>
          (get1 (vvalues logits) i - log_z) * get1 (vvalues targets) i) in
    Ret (if Req_dec_T z_loss 0 then loss else loss + z_loss * (log_z * log_z)).

(** [sigmoid_cross_entropy_with_logits], layers.py lines 663-682, on tensors
    of rank one. *)
Definition sigmoid_cross_entropy_with_logits (logits targets : vector)
  : pyresult (list R) :=
  if negb (bool_decide (vshape logits = vshape targets))
  then Raise (ValueError "logits shape must equal targets shape")
  else
    Ret (tab (dim_size (vdim logits)) (fun i =>
           let x := get1 (vvalues logits) i in
           let z := get1 (vvalues targets) i in
           Rmax x 0 - x * z + ln (1 + exp (- Rabs x)))).

(** The logistic function. *)
Definition sigmoid (x : R) : R := / (1 + exp (- x)).

(** [layer_norm], layers.py lines 515-544, along [dim] for a tensor of rank
    one; [scale] and [bias] are the values of the two variables (created as
    ones and zeros).  [mtf.reduce_mean] divides the sum by the size of the
    dimension and [mtf.rsqrt] is the inverse of the square root. *)
Definition layer_norm (n : nat) (x scale bias : list R) (epsilon : R)
  : list R :=
  let mean := sumR n (fun i => get1 x i) / INR n in
  let variance :=
    sumR n (fun i => (get1 x i - mean) * (get1 x i - mean)) / INR n in
  tab n (fun i =>
    (get1 x i - mean) * / sqrt (variance + epsilon) * get1 scale i
    + get1 bias i).

End Losses.

(** ** Attention masks on positions *)

Module Masks.
Import Tensor.

(** Reading an int32 tensor of rank one. *)
Definition geti (t : list Z) (i : nat) : Z := default 0%Z (t !! i).

(** [attention_mask_autoregressive], layers.py lines 1372-1383, for
    [query_pos : [length]]: the result has shape [[length, memory_length]],
    [memory_pos] being [query_pos] on the renamed axis. *)
Definition attention_mask_autoregressive (length : nat) (query_pos : list Z)
  : list (list R) :=
  let memory_pos := query_pos in
  tab length (fun q =>
    tab length (fun m =>
      cast (geti query_pos q <? geti memory_pos m)%Z * -1e9)).

End Masks.

(** ** Decode state of the Transformer self-attention layers *)

Module TransformerState.
Import Tensor Attention.

Section State.

Variables heads kv_channels : nat.

(** The keys recorded by [SelfAttention.call] in incremental mode,
    transformer_layers.py lines 189-199 (without [shared_kv]; the values are
    treated alike): [k = old_k * inv_one_hot + k * one_hot] for the
    projection [k : [heads, kv_channels]] of the token and the state
    [old_k : [heads, memory_length, kv_channels]]. *)
Definition self_attention_state (memory_length : nat) (position : Z)
    (k : list (list R)) (old_k : list (list (list R)))
  : list (list (list R)) :=
  let one_hot := one_hot position memory_length in
  let inv_one_hot := tab memory_length (fun s => 1 - get1 one_hot s) in
  tab heads (fun h =>
    tab memory_length (fun s =>
      tab kv_channels (fun d =>
        get3 old_k h s d * get1 inv_one_hot s
        + get2 k h d * get1 one_hot s))).

(** The keys recorded by [LocalSelfAttention.call] in incremental mode,
    transformer_layers.py lines 502-516: the window has [radius] slots. *)
Definition local_state (radius : nat) (position : Z)
    (k : list (list R)) (prev_k : list (list (list R)))
  : list (list (list R)) :=
  let current_position :=
    (fun window_pos => (window_pos =? position mod Z.of_nat radius)%Z)
      <$> range radius in
  where_position heads radius current_position k prev_k.

(** [visible] of the incremental branch, lines 517-518. *)
Definition local_visible (radius : nat) (position : Z) : list bool :=
  (fun window_pos => (position >=? window_pos)%Z) <$> range radius.

(** [select_recent] of the first_part branch, lines 560-568, of shape
    [[length, window]]. *)
Definition select_recent (radius length : nat) (initial_position : Z)
  : list (list R) :=
  (fun pos =>
     (fun window_pos =>
        cast (pos mod Z.of_nat radius =? window_pos)%Z
        * cast (pos <? initial_position)%Z
        * cast (pos >=? initial_position - Z.of_nat radius)%Z)
       <$> range radius)
    <$> range length.

(** [k_state] of the first_part branch, lines 569-574, for
    [k : [heads, length, kv_channels]]: the einsum reduces the length
    axis. *)
Definition first_part_state (radius length : nat) (initial_position : Z)
    (k : list (list (list R))) : list (list (list R)) :=
  let select_recent := select_recent radius length initial_position in
  tab heads (fun h =>
    tab radius (fun w =>
      tab kv_channels (fun d =>
        sumR length (fun pos => get3 k h pos d * get2 select_recent pos w)))).

(** The state recorded after [n] incremental calls, at the positions
    [0 .. n-1], from the zero state; the token at position [t] has the
    keys [k[:, t, :]]. *)
Fixpoint incremental_states (radius : nat) (k : list (list (list R)))
    (n : nat) : list (list (list R)) :=
  match n with
  | O => zero_state heads kv_channels radius
  | S t =>
      local_state radius (Z.of_nat t) (tab heads (fun h => row (row k h) t))
        (incremental_states radius k t)
  end.

End State.

End TransformerState.

(** ** Dense layers *)

Module Dense.
Import Tensor Attention GraphConstruction.

(** The outcome of a call that can also fail on [dims[-1]] of an empty
    shape. *)
Inductive outcome (A : Type) : Type :=
| Returns (a : A)
| Raises (e : pyerror)
| RaisesIndexError.
Arguments Returns {A} a.
Arguments Raises {A} e.
Arguments RaisesIndexError {A}.

(** [mtf.list_product] of the sizes. *)
Definition list_product (sizes : list nat) : nat := foldr Nat.mul 1%nat sizes.

(** [dense], layers.py lines 27-87, without [expert_dims] and bias as
    [dense_relu_dense] calls it.  Only the shapes are kept: the result is
    the shape of the kernel, the initializer standard deviation and the
    shape of the output (the activation keeps the shape).
    [reduced_dims = None] reduces [x.shape.dims[-1:]]. *)
Definition dense (x : Shape) (output_dim : Dimension)
    (reduced_dims : option (list Dimension)) : pyresult (Shape * R * Shape) :=
  let output_dims := [output_dim] in
  let expert_dims : list Dimension := [] in
  let reduced_dims :=
    match reduced_dims with
    | Some dims => dims
    | None => drop (length x - 1) x
    end in
  let w_shape := expert_dims ++ reduced_dims ++ output_dims in
  let output_shape :=
    filter (fun d => d ∉ reduced_dims) x ++ output_dims in
  bind (py_pow (list_product (dim_size <$> reduced_dims)) (-0.5))
    (fun stddev => Ret (w_shape, stddev, output_shape)).

(** [dense_relu_dense], layers.py lines 691-723, with [dropout = 0.0]: the
    shape of the result. *)
Definition dense_relu_dense (x : Shape) (hidden_channels : Dimension)
  : outcome Shape :=
  match last x with
  | None => RaisesIndexError
  | Some io_channels =>
      match dense x hidden_channels None with
      | Raise e => Raises e
      | Ret (_, _, h) =>
          match dense h io_channels None with
          | Raise e => Raises e
          | Ret (_, _, y) => Returns y
          end
      end
  end.

End Dense.

(** * Properties *)

Import Tensor BlockPartition Bias Attention GraphConstruction
  RelativePosition.
Import HeadParams Compression Losses Masks TransformerState Dense.

(** ** Block partitioner *)

Section BlockPartitionFacts.
Local Open Scope Z_scope.

Lemma block_length_loop_returns (s : Z) (b : nat) :
  (1 <= b)%nat ->
  exists r, block_length_loop s b = Ret r /\ 1 <= r <= Z.of_nat b /\
    s mod r = 0 /\
    forall c, r < c <= Z.of_nat b -> s mod c <> 0.
Proof.
  induction b as [|b IH]; [lia|]. intros _.
  cbn [block_length_loop].
  destruct (Z.eqb_spec (s mod Z.of_nat (S b)) 0) as [Hdiv|Hndiv].
  - exists (Z.of_nat (S b)). repeat split; try lia.
  - destruct b as [|b].
    + exfalso. apply Hndiv. change (Z.of_nat 1) with 1. apply Z.mod_1_r.
    + destruct IH as (r & Hr & Hrange & Hmod & Hmax); [lia|].
      exists r. repeat split; try lia; [exact Hr|].
      intros c Hc. destruct (Z.eq_dec c (Z.of_nat (S (S b)))) as [->|Hne].
      * exact Hndiv.
      * apply Hmax. lia.
Qed.

(** C2.  For positive L, W, S with S dividing L (S is length_per_split, or L
    when length_per_split is None), the block-length selection returns
    (raises nothing) the largest b <= max(W, 128) with S % b == 0, and
    num_blocks * block_length == L. *)
Theorem choose_block_length_largest_divisor (L W : Z)
    (length_per_split : option Z) :
  let S := default L length_per_split in
  0 < L -> 0 < W -> 0 < S -> (S | L) ->
  exists b,
    choose_block_length W L length_per_split = Ret b /\
    1 <= b <= Z.max W 128 /\
    S mod b = 0 /\
    (forall c, 0 < c <= Z.max W 128 -> S mod c = 0 -> c <= b) /\
    num_blocks L b * b = L.
Proof.
  intros S HL HW HS [q Hq]. unfold choose_block_length. fold S.
  destruct (block_length_loop_returns S (Z.to_nat (Z.max W 128)))
    as (b & Hb & Hrange & Hmod & Hmax); [lia|].
  rewrite Z2Nat.id in Hrange, Hmax by lia.
  exists b. repeat split; try lia; [exact Hb| |].
  - intros c Hc Hdiv. destruct (Z_le_gt_dec c b) as [|Hgt]; [assumption|].
    exfalso. apply (Hmax c); [lia | exact Hdiv].
  - unfold num_blocks.
    apply Z.mod_divide in Hmod; [|lia]. destruct Hmod as [m Hm].
    rewrite Hq, Hm, Z.mul_assoc, Z.div_mul by lia. reflexivity.
Qed.

Lemma choose_block_length_largest_divisor_witness :
  exists b,
    choose_block_length 2 8 (Some 4) = Ret b /\
    1 <= b <= Z.max 2 128 /\
    4 mod b = 0 /\
    (forall c, 0 < c <= Z.max 2 128 -> 4 mod c = 0 -> c <= b) /\
    num_blocks 8 b * b = 8.
Proof.
  apply (choose_block_length_largest_divisor 8 2 (Some 4)); cbn; try lia.
  exists 2. reflexivity.
Defined.

End BlockPartitionFacts.

(** ** Reading tensors *)

Section TensorFacts.

Lemma lookup_tab {A : Type} (n : nat) (f : nat -> A) (i : nat) :
  (i < n)%nat -> tab n f !! i = Some (f i).
Proof.
  intros Hi. unfold tab. rewrite list_lookup_fmap, lookup_seq_lt by lia.
  reflexivity.
Qed.

Lemma length_tab {A : Type} (n : nat) (f : nat -> A) : length (tab n f) = n.
Proof. unfold tab. rewrite length_fmap, length_seq. reflexivity. Qed.

Lemma row_tab {A : Type} (n : nat) (f : nat -> list A) (i : nat) :
  (i < n)%nat -> row (tab n f) i = f i.
Proof. intros Hi. unfold row. rewrite lookup_tab by lia. reflexivity. Qed.

Lemma get1_tab (n : nat) (f : nat -> R) (i : nat) :
  (i < n)%nat -> get1 (tab n f) i = f i.
Proof. intros Hi. unfold get1. rewrite lookup_tab by lia. reflexivity. Qed.

Lemma lookup_range (n i : nat) :
  (i < n)%nat -> range n !! i = Some (Z.of_nat i).
Proof.
  intros Hi. unfold range. rewrite list_lookup_fmap, lookup_seq_lt by lia.
  reflexivity.
Qed.

Lemma tab_ext {A : Type} (n : nat) (f g : nat -> A) :
  (forall i, (i < n)%nat -> f i = g i) -> tab n f = tab n g.
Proof.
  intros Hfg. unfold tab. apply list_fmap_ext.
  intros i y Hy. apply lookup_seq in Hy. destruct Hy as [-> Hlt].
  apply Hfg. lia.
Qed.

End TensorFacts.

(** ** Attention biases *)

Section BiasFacts.

Lemma attention_bias_local_block_entry (block_length memory_length : Dimension)
    (i j : nat) :
  (i < dim_size block_length)%nat ->
  (j < 2 * dim_size block_length)%nat ->
  get2 (attention_bias_local_block block_length memory_length) i j =
    if (j <=? i + local_1d_halo_size block_length)%nat then 0 else -1e9.
Proof.
  intros Hi Hj. unfold attention_bias_local_block, local_1d_halo_size.
  cbn [dim_size dim_name]. set (B := dim_size block_length) in *.
  unfold get2, row, get1.
  rewrite list_lookup_fmap, lookup_zip_with, lookup_tab by lia.
  rewrite list_lookup_fmap, lookup_range by lia. cbn.
  rewrite list_lookup_fmap.
  destruct (Nat.lt_ge_cases j B) as [Hlt|Hge].
  - rewrite lookup_app_l by (rewrite length_tab; lia).
    rewrite lookup_tab by lia. cbn.
    destruct (Nat.leb_spec j (i + B)); [lra | lia].
  - rewrite lookup_app_r by (rewrite length_tab; lia).
    rewrite length_tab, list_lookup_fmap, lookup_range by lia. cbn.
    destruct (Z.ltb_spec (Z.of_nat i) (Z.of_nat (j - B)));
      destruct (Nat.leb_spec j (i + B)); cbn; try lia; lra.
Qed.

(** C3.  In the causal block mask of [attention_bias_local_block], with the
    halo of [local_self_attention_spatial_blocks] (as long as the block),
    memory position j of the augmented block is visible to query position i
    (bias 0) exactly when j <= i + halo_size, and has bias -1e9 otherwise. *)
Theorem attention_bias_local_block_visible (block_length memory_length : Dimension)
    (i j : nat) :
  (i < dim_size block_length)%nat ->
  (j < dim_size block_length + local_1d_halo_size block_length)%nat ->
  let bias := get2 (attention_bias_local_block block_length memory_length) i j in
  (bias = 0 <-> (j <= i + local_1d_halo_size block_length)%nat) /\
  (bias = -1e9 <-> ~ (j <= i + local_1d_halo_size block_length)%nat).
Proof.
  intros Hi Hj. cbn zeta.
  rewrite attention_bias_local_block_entry
    by (unfold local_1d_halo_size in Hj; lia).
  destruct (Nat.leb_spec j (i + local_1d_halo_size block_length)).
  - split; split; intros; try lia; try lra.
  - split; split; intros; try lia; try lra.
Qed.

Lemma attention_bias_local_block_visible_witness :
  let bias :=
    get2 (attention_bias_local_block (mkDim "w" 4) (mkDim "memory_w" 4)) 1 6 in
  (bias = 0 <-> (6 <= 1 + local_1d_halo_size (mkDim "w" 4))%nat) /\
  (bias = -1e9 <-> ~ (6 <= 1 + local_1d_halo_size (mkDim "w" 4))%nat).
Proof.
  apply (attention_bias_local_block_visible (mkDim "w" 4) (mkDim "memory_w" 4) 1 6);
    cbn; lia.
Defined.

Lemma local_attention_mask_entry (window_size block_length i j : nat) :
  (i < block_length)%nat -> (j < window_size + block_length)%nat ->
  get2 (local_attention_mask window_size block_length) j i =
    if ((j <=? i + window_size) && (i + window_size <? j + block_length))%nat
    then 0 else -1e9.
Proof.
  intros Hi Hj. unfold local_attention_mask, get2, row, get1.
  rewrite lookup_zip_with, !list_lookup_fmap, lookup_range by lia.
  cbn -[IZR Z.pow_pos Nat.ltb Nat.leb].
  rewrite lookup_zip_with, !list_lookup_fmap, lookup_range by lia.
  cbn -[IZR Z.pow_pos Nat.ltb Nat.leb]. unfold cast.
  destruct (Z.gtb_spec (Z.of_nat j) (Z.of_nat i + Z.of_nat window_size));
    destruct (Z.leb_spec (Z.of_nat j)
                (Z.of_nat i + Z.of_nat window_size - Z.of_nat block_length));
    destruct (Nat.leb_spec j (i + window_size));
    destruct (Nat.ltb_spec (i + window_size) (j + block_length));
    cbn [andb]; try lia; lra.
Qed.

End BiasFacts.

(** ** The attention kernel and the initialisers *)

Section KernelFacts.

Lemma attention_logits_entry (depth_k length_kv : nat) (q : list R)
    (k : list (list R)) (mask : option (nat -> R)) (j : nat) :
  (j < length_kv)%nat ->
  get1 (attention_logits depth_k length_kv q k mask) j =
    match mask with
    | Some m => sumR depth_k (fun d => get1 q d * get2 k j d) + m j
    | None => sumR depth_k (fun d => get1 q d * get2 k j d)
    end.
Proof.
  intros Hj. unfold attention_logits. destruct mask as [m|].
  - rewrite !get1_tab by lia. reflexivity.
  - rewrite get1_tab by lia. reflexivity.
Qed.

Lemma Rpower_neg_half_sqr (x : R) :
  0 < x -> Rpower x (-0.5) * Rpower x (-0.5) = / x.
Proof.
  intros Hx. rewrite <- Rpower_plus.
  replace (-0.5 + -0.5) with (- (1)) by lra.
  rewrite Rpower_Ropp, Rpower_1 by assumption. reflexivity.
Qed.

Lemma Rpower_neg_quarter_sqr (x : R) :
  0 < x -> Rpower x (-0.25) * Rpower x (-0.25) = / sqrt x.
Proof.
  intros Hx. rewrite <- Rpower_plus.
  replace (-0.25 + -0.25) with (- (/ 2)) by lra.
  rewrite Rpower_Ropp, Rpower_sqrt by assumption. reflexivity.
Qed.

(** C9.  [dot_product_attention] is the softmax, over the memory axis, of
    the plain contraction of q and k over the depth axis plus the mask,
    applied to v: nothing is multiplied into the logits inside the kernel.
    The scaling sits in the initialisers: the standard deviation of the
    query and of the key projection is io_channels^-0.5 * kv_channels^-0.25,
    so that their product carries the factor 1 / sqrt(kv_channels). *)
Theorem dot_product_attention_logits_unscaled
    (heads io_channels kv_channels : nat) :
  (0 < heads)%nat -> (0 < io_channels)%nat -> (0 < kv_channels)%nat ->
  (forall (fexp : R -> R) (depth_v length_kv : nat) (q : list R)
          (k v : list (list R)) (mask : option (nat -> R)),
      dot_product_attention_row fexp kv_channels depth_v length_kv q k v mask
      = let logits :=
          tab length_kv (fun j =>
            match mask with
            | Some m =>
                sumR kv_channels (fun c => get1 q c * get2 k j c) + m j
            | None => sumR kv_channels (fun c => get1 q c * get2 k j c)
            end) in
        let weights := softmax fexp length_kv logits in
        tab depth_v (fun d =>
          sumR length_kv (fun j => get1 weights j * get2 v j d))) /\
  exists q_stddev k_stddev v_stddev o_stddev,
    multihead_attention_params_stddev heads io_channels kv_channels =
      Ret (q_stddev, k_stddev, v_stddev, o_stddev) /\
    q_stddev =
      Rpower (INR io_channels) (-0.5) * Rpower (INR kv_channels) (-0.25) /\
    k_stddev = q_stddev /\
    q_stddev * k_stddev = / INR io_channels * / sqrt (INR kv_channels).
Proof.
  intros HH HC HD. split.
  - intros fexp depth_v n q k v mask. cbn zeta.
    unfold dot_product_attention_row.
    replace (attention_logits kv_channels n q k mask)
      with (tab n (fun j =>
              match mask with
              | Some m =>
                  sumR kv_channels (fun c => get1 q c * get2 k j c) + m j
              | None => sumR kv_channels (fun c => get1 q c * get2 k j c)
              end)); [reflexivity|].
    unfold attention_logits. destruct mask as [m|]; [|reflexivity].
    apply tab_ext. intros j Hj. rewrite get1_tab by lia. reflexivity.
  - unfold multihead_attention_params_stddev, py_pow.
    destruct (Nat.eqb_spec io_channels 0) as [|_]; [lia|].
    destruct (Nat.eqb_spec kv_channels 0) as [|_]; [lia|].
    destruct (Nat.eqb_spec (io_channels * heads) 0) as [|_]; [lia|].
    cbn. do 4 eexists. split; [reflexivity|]. split; [reflexivity|].
    split; [reflexivity|].
    assert (0 < INR io_channels) by (apply lt_0_INR; lia).
    assert (0 < INR kv_channels) by (apply lt_0_INR; lia).
    rewrite <- (Rpower_neg_half_sqr (INR io_channels)) by assumption.
    rewrite <- (Rpower_neg_quarter_sqr (INR kv_channels)) by assumption.
    ring.
Qed.

Lemma dot_product_attention_logits_unscaled_witness :
  (forall (fexp : R -> R) (depth_v length_kv : nat) (q : list R)
          (k v : list (list R)) (mask : option (nat -> R)),
      dot_product_attention_row fexp 4 depth_v length_kv q k v mask
      = let logits :=
          tab length_kv (fun j =>
            match mask with
            | Some m => sumR 4 (fun c => get1 q c * get2 k j c) + m j
            | None => sumR 4 (fun c => get1 q c * get2 k j c)
            end) in
        let weights := softmax fexp length_kv logits in
        tab depth_v (fun d =>
          sumR length_kv (fun j => get1 weights j * get2 v j d))) /\
  exists q_stddev k_stddev v_stddev o_stddev,
    multihead_attention_params_stddev 2 8 4 =
      Ret (q_stddev, k_stddev, v_stddev, o_stddev) /\
    q_stddev = Rpower (INR 8) (-0.5) * Rpower (INR 4) (-0.25) /\
    k_stddev = q_stddev /\
    q_stddev * k_stddev = / INR 8 * / sqrt (INR 4).
Proof.
  apply (dot_product_attention_logits_unscaled 2 8 4); lia.
Defined.

End KernelFacts.

(** ** The decode state *)

Section StateFacts.

Variable fexp : R -> R.
Variables heads io_channels kv_channels : nat.

Lemma where_position_row (window_length : nat) (pos : Z)
    (k : list (list R)) (prev_k : list (list (list R))) (h s : nat) :
  (h < heads)%nat -> (s < window_length)%nat ->
  row (row (where_position heads window_length
              ((fun s => (s =? pos)%Z) <$> range window_length) k prev_k) h) s
  = if (Z.of_nat s =? pos)%Z then row k h else row (row prev_k h) s.
Proof.
  intros Hh Hs. unfold where_position.
  rewrite !row_tab by lia.
  rewrite list_lookup_fmap, lookup_range by lia. reflexivity.
Qed.

(** C5.  One decode step of [masked_local_attention_1d_incremental] with a
    window of n slots writes the fresh key (value) projection of the input
    token into slot [step_num mod n] and carries every other slot of
    [prev_k] ([prev_v]) over unchanged. *)
Theorem incremental_step_writes_one_slot (window_length : nat) (x : list R)
    (prev_k prev_v : list (list (list R))) (step_num : Z) (p : params) :
  (0 < window_length)%nat ->
  let '(_, new_k, new_v) :=
    masked_local_attention_1d_incremental fexp heads io_channels kv_channels
      window_length x prev_k prev_v step_num p in
  let slot := Z.to_nat (step_num mod Z.of_nat window_length) in
  (slot < window_length)%nat /\
  forall h, (h < heads)%nat ->
    row (row new_k h) slot =
      row (einsum_x_w heads io_channels kv_channels x (wk p)) h /\
    row (row new_v h) slot =
      row (einsum_x_w heads io_channels kv_channels x (wv p)) h /\
    forall s, (s < window_length)%nat -> s <> slot ->
      row (row new_k h) s = row (row prev_k h) s /\
      row (row new_v h) s = row (row prev_v h) s.
Proof.
  intros Hn. unfold masked_local_attention_1d_incremental. cbn zeta.
  pose proof (Z.mod_pos_bound step_num (Z.of_nat window_length) ltac:(lia))
    as Hmod.
  split; [lia|].
  intros h Hh. rewrite !where_position_row by lia.
  rewrite Z2Nat.id, Z.eqb_refl by lia.
  split; [reflexivity|]. split; [reflexivity|].
  intros s Hs Hne. rewrite !where_position_row by lia.
  destruct (Z.eqb_spec (Z.of_nat s) (step_num mod Z.of_nat window_length));
    [lia|].
  split; reflexivity.
Qed.

Lemma get1_one_hot (index : Z) (output_dim s : nat) :
  (s < output_dim)%nat ->
  get1 (one_hot index output_dim) s =
    if (Z.of_nat s =? index)%Z then 1 else 0.
Proof.
  intros Hs. unfold one_hot, get1.
  rewrite list_lookup_fmap, lookup_range by lia. reflexivity.
Qed.

(** Entry of the state returned by [multihead_self_attention_incremental]. *)
Lemma multihead_self_attention_incremental_entry (memory_length : nat)
    (x : list R) (prev_k prev_v : list (list (list R))) (step_num : Z)
    (p : params) (h s d : nat) :
  (h < heads)%nat -> (s < memory_length)%nat -> (d < kv_channels)%nat ->
  let '(_, new_k, new_v) :=
    multihead_self_attention_incremental fexp heads io_channels kv_channels
      memory_length x prev_k prev_v step_num p in
  get3 new_k h s d =
    get3 prev_k h s d
    + get2 (einsum_x_w heads io_channels kv_channels x (wk p)) h d
      * (if (Z.of_nat s =? step_num)%Z then 1 else 0) /\
  get3 new_v h s d =
    get3 prev_v h s d
    + get2 (einsum_x_w heads io_channels kv_channels x (wv p)) h d
      * (if (Z.of_nat s =? step_num)%Z then 1 else 0).
Proof.
  intros Hh Hs Hd. unfold multihead_self_attention_incremental. cbn zeta.
  unfold get3, get2.
  rewrite !row_tab, !get1_tab by lia.
  rewrite get1_one_hot by lia.
  split; reflexivity.
Qed.

(** C10.  [multihead_self_attention_incremental] adds into its cache:
    new_k = prev_k + k * one_hot(step_num, memory_length) entry by entry, and
    likewise for v.  So the slot at step_num holds the new projection only
    where prev_k was zero, a second write to the same step_num accumulates,
    and a step_num at or beyond memory_length writes nothing (it is not
    reduced modulo memory_length). *)
Theorem self_attention_incremental_cache_is_additive (memory_length : nat)
    (x1 x2 : list R) (prev_k prev_v : list (list (list R))) (step_num : Z)
    (p : params) (h s d : nat) :
  (h < heads)%nat -> (s < memory_length)%nat -> (d < kv_channels)%nat ->
  let proj x w := get2 (einsum_x_w heads io_channels kv_channels x w) h d in
  let '(_, k1, v1) :=
    multihead_self_attention_incremental fexp heads io_channels kv_channels
      memory_length x1 prev_k prev_v step_num p in
  let '(_, k2, v2) :=
    multihead_self_attention_incremental fexp heads io_channels kv_channels
      memory_length x2 k1 v1 step_num p in
  (get3 k1 h s d =
     get3 prev_k h s d
     + proj x1 (wk p) * get1 (one_hot step_num memory_length) s /\
   get3 v1 h s d =
     get3 prev_v h s d
     + proj x1 (wv p) * get1 (one_hot step_num memory_length) s) /\
  (Z.of_nat s = step_num ->
     (get3 prev_k h s d = 0 -> get3 k1 h s d = proj x1 (wk p)) /\
     (get3 prev_v h s d = 0 -> get3 v1 h s d = proj x1 (wv p)) /\
     get3 k2 h s d = get3 prev_k h s d + proj x1 (wk p) + proj x2 (wk p) /\
     get3 v2 h s d = get3 prev_v h s d + proj x1 (wv p) + proj x2 (wv p)) /\
  (Z.of_nat s <> step_num ->
     get3 k1 h s d = get3 prev_k h s d /\ get3 v1 h s d = get3 prev_v h s d) /\
  ((Z.of_nat memory_length <= step_num)%Z ->
     get3 k1 h s d = get3 prev_k h s d /\ get3 v1 h s d = get3 prev_v h s d).
Proof.
  intros Hh Hs Hd proj.
  pose proof (multihead_self_attention_incremental_entry memory_length x1
                prev_k prev_v step_num p h s d Hh Hs Hd) as E1.
  destruct (multihead_self_attention_incremental fexp heads io_channels
              kv_channels memory_length x1 prev_k prev_v step_num p)
    as [[y1 k1] v1].
  pose proof (multihead_self_attention_incremental_entry memory_length x2
                k1 v1 step_num p h s d Hh Hs Hd) as E2.
  destruct (multihead_self_attention_incremental fexp heads io_channels
              kv_channels memory_length x2 k1 v1 step_num p)
    as [[y2 k2] v2].
  destruct E1 as [E1k E1v], E2 as [E2k E2v].
  rewrite get1_one_hot by lia. subst proj. cbn beta.
  destruct (Z.eqb_spec (Z.of_nat s) step_num) as [Heq|Hne].
  - split; [split; assumption|]. split; [|split; intros; lia].
    intros _. rewrite E2k, E2v, E1k, E1v.
    repeat split; try (intros ->); ring.
  - split; [split; assumption|]. split; [intros; lia|].
    split; intros _; rewrite E1k, E1v; split; ring.
Qed.

End StateFacts.

Lemma self_attention_incremental_cache_is_additive_witness :
  let p := Attention.mkParams [[[1]]] [[[2]]] [[[3]]] [[[1]]] in
  let proj x w := get2 (einsum_x_w 1 1 1 x w) 0 0 in
  let prev := [[[5]; [0]]] in
  let '(_, k1, v1) :=
    multihead_self_attention_incremental exp 1 1 1 2 [1] prev prev 0 p in
  let '(_, k2, v2) :=
    multihead_self_attention_incremental exp 1 1 1 2 [4] k1 v1 0 p in
  (get3 k1 0 0 0 =
     get3 prev 0 0 0 + proj [1] (wk p) * get1 (one_hot 0 2) 0 /\
   get3 v1 0 0 0 =
     get3 prev 0 0 0 + proj [1] (wv p) * get1 (one_hot 0 2) 0) /\
  (Z.of_nat 0 = 0%Z ->
     (get3 prev 0 0 0 = 0 -> get3 k1 0 0 0 = proj [1] (wk p)) /\
     (get3 prev 0 0 0 = 0 -> get3 v1 0 0 0 = proj [1] (wv p)) /\
     get3 k2 0 0 0 = get3 prev 0 0 0 + proj [1] (wk p) + proj [4] (wk p) /\
     get3 v2 0 0 0 = get3 prev 0 0 0 + proj [1] (wv p) + proj [4] (wv p)) /\
  (Z.of_nat 0 <> 0%Z ->
     get3 k1 0 0 0 = get3 prev 0 0 0 /\ get3 v1 0 0 0 = get3 prev 0 0 0) /\
  ((Z.of_nat 2 <= 0)%Z ->
     get3 k1 0 0 0 = get3 prev 0 0 0 /\ get3 v1 0 0 0 = get3 prev 0 0 0).
Proof.
  intros p proj prev.
  apply (self_attention_incremental_cache_is_additive exp 1 1 1 2 [1] [4] prev prev 0 p
           0 0 0); lia.
Defined.

Lemma incremental_step_writes_one_slot_witness :
  let p := Attention.mkParams [[[1]]] [[[2]]] [[[3]]] [[[1]]] in
  let prev := [[[5]; [7]]] in
  let '(_, new_k, new_v) :=
    Attention.masked_local_attention_1d_incremental exp 1 1 1 2 [1] prev prev
      3 p in
  let slot := Z.to_nat (3 mod Z.of_nat 2) in
  (slot < 2)%nat /\
  forall h, (h < 1)%nat ->
    Tensor.row (Tensor.row new_k h) slot =
      Tensor.row (Attention.einsum_x_w 1 1 1 [1] (Attention.wk p)) h /\
    Tensor.row (Tensor.row new_v h) slot =
      Tensor.row (Attention.einsum_x_w 1 1 1 [1] (Attention.wv p)) h /\
    forall s, (s < 2)%nat -> s <> slot ->
      Tensor.row (Tensor.row new_k h) s = Tensor.row (Tensor.row prev h) s /\
      Tensor.row (Tensor.row new_v h) s = Tensor.row (Tensor.row prev h) s.
Proof.
  intros p prev.
  apply (incremental_step_writes_one_slot exp 1 1 1 2 [1] prev prev 3 p).
  lia.
Defined.

(** ** The blocks of [masked_local_attention_1d] *)

Section BlockFacts.

Variables heads kv_channels : nat.

Lemma left_halo_exchange_row (num_blocks block_length halo_size : nat)
    (t : list (list (list (list R)))) (h b j : nat) :
  (h < heads)%nat -> (b < num_blocks)%nat ->
  (j < halo_size + block_length)%nat ->
  row (row (row (left_halo_exchange heads kv_channels num_blocks block_length
                   halo_size t) h) b) j =
    if (b * block_length + j <? halo_size)%nat then zeros kv_channels
    else row (row (row t h) ((b * block_length + j - halo_size) / block_length))
           ((b * block_length + j - halo_size) mod block_length).
Proof.
  intros Hh Hb Hj. unfold left_halo_exchange.
  rewrite !row_tab by lia. reflexivity.
Qed.

Lemma reshape_to_blocks_row (num_blocks block_length : nat)
    (t : list (list (list R))) (h b i : nat) :
  (h < heads)%nat -> (b < num_blocks)%nat -> (i < block_length)%nat ->
  row (row (row (reshape_to_blocks heads num_blocks block_length t) h) b) i =
    row (row t h) (b * block_length + i).
Proof.
  intros Hh Hb Hi. unfold reshape_to_blocks.
  rewrite !row_tab by lia. reflexivity.
Qed.

(** Slot [j] of the extended block [b] of a reshaped tensor is the element
    at position [b * block_length + j - halo_size] of the sequence, and zero
    before the start of the sequence. *)
Lemma halo_of_blocks_row (num_blocks block_length halo_size : nat)
    (t : list (list (list R))) (h b j : nat) :
  (h < heads)%nat -> (b < num_blocks)%nat ->
  (j < halo_size + block_length)%nat ->
  row (row (row (left_halo_exchange heads kv_channels num_blocks block_length
                   halo_size
                   (reshape_to_blocks heads num_blocks block_length t)) h) b) j
  = if (b * block_length + j <? halo_size)%nat then zeros kv_channels
    else row (row t h) (b * block_length + j - halo_size).
Proof.
  intros Hh Hb Hj. rewrite left_halo_exchange_row by lia.
  destruct (Nat.ltb_spec (b * block_length + j) halo_size) as [|Hge];
    [reflexivity|].
  assert (0 < block_length)%nat as HB by (destruct block_length; lia).
  set (g := (b * block_length + j - halo_size)%nat).
  assert (g < num_blocks * block_length)%nat as Hg.
  { assert (S b * block_length <= num_blocks * block_length)%nat
      by (apply Nat.mul_le_mono_r; lia).
    unfold g. lia. }
  rewrite reshape_to_blocks_row.
  - f_equal. pose proof (Nat.div_mod_eq g block_length). lia.
  - exact Hh.
  - apply Nat.Div0.div_lt_upper_bound. lia.
  - apply Nat.mod_upper_bound. lia.
Qed.

(** C4 (as the code has it).  On a length-8 sequence with window_size 2 and
    4 positions per split, [masked_local_attention_1d] takes block_length 4
    and 2 blocks; each block's memory is 6 wide; the 2 left slots of block 0
    are zero and those of block 1 are the last 2 positions of block 0; and
    the mask gives bias 0 to memory position j for query position i exactly
    when i - 2 < j <= i + 2, and bias -1e9 to every other position. *)
Theorem local_attention_example_mask :
  choose_block_length 2 8 (Some 4%Z) = Ret 4%Z /\
  num_blocks 8 4 = 2%Z /\
  (forall (t : list (list (list R))) (h : nat), (h < heads)%nat ->
     let memory :=
       left_halo_exchange heads kv_channels 2 4 2
         (reshape_to_blocks heads 2 4 t) in
     length (row (row memory h) 0) = 6%nat /\
     length (row (row memory h) 1) = 6%nat /\
     row (row (row memory h) 0) 0 = zeros kv_channels /\
     row (row (row memory h) 0) 1 = zeros kv_channels /\
     row (row (row memory h) 1) 0 = row (row t h) 2 /\
     row (row (row memory h) 1) 1 = row (row t h) 3 /\
     forall b i, (b < 2)%nat -> (i < 4)%nat ->
       row (row (row memory h) b) (2 + i) = row (row t h) (b * 4 + i)) /\
  (forall i j, (i < 4)%nat -> (j < 6)%nat ->
     let bias := get2 (local_attention_mask 2 4) j i in
     (bias = 0 <-> (i < j + 2 /\ j <= i + 2)%nat) /\
     (bias = -1e9 <-> ~ (i < j + 2 /\ j <= i + 2)%nat)).
Proof.
  split; [reflexivity|]. split; [reflexivity|]. split.
  - intros t h Hh memory. subst memory.
    split; [|split].
    + unfold left_halo_exchange. rewrite !row_tab by lia. apply length_tab.
    + unfold left_halo_exchange. rewrite !row_tab by lia. apply length_tab.
    + repeat split;
        try (rewrite halo_of_blocks_row by lia; reflexivity).
      intros b i Hb Hi. rewrite halo_of_blocks_row by lia.
      destruct (Nat.ltb_spec (b * 4 + (2 + i)) 2) as [|_]; [lia|].
      replace (b * 4 + (2 + i) - 2)%nat with (b * 4 + i)%nat by lia.
      reflexivity.
  - intros i j Hi Hj. cbn zeta.
    rewrite local_attention_mask_entry by lia.
    destruct (Nat.leb_spec j (i + 2));
      destruct (Nat.ltb_spec (i + 2) (j + 4)); cbn [andb];
      split; split; intros; try lia; try lra.
Qed.

End BlockFacts.

(** C4, counterexample: memory position 0 satisfies 0 <= 2 + 2 and yet is
    hidden from query position 2. *)
Lemma example_mask_hides_old_memory :
  ~ ((0 <= 2 + 2)%nat -> get2 (local_attention_mask 2 4) 0 2 = 0).
Proof.
  intros H. specialize (H ltac:(lia)).
  rewrite local_attention_mask_entry in H by lia.
  change (-1e9 = 0) in H. lra.
Qed.

(** ** Configuration errors of [multihead_attention] *)

Section GraphFacts.









End GraphFacts.



(** ** Relative position buckets *)

Section BucketFacts.
Local Open Scope Z_scope.

Lemma to_int32_nonneg (x : R) : (0 <= x)%R -> 0 <= to_int32 x.
Proof.
  intros Hx. unfold to_int32. destruct (Rlt_dec x 0) as [Hneg|_]; [lra|].
  apply Zfloor_lub. exact Hx.
Qed.

Lemma to_int32_le (x y : R) : (x <= y)%R -> to_int32 x <= to_int32 y.
Proof.
  intros Hxy. unfold to_int32.
  destruct (Rlt_dec x 0) as [Hx|Hx]; destruct (Rlt_dec y 0) as [Hy|Hy].
  - apply Zceil_le. exact Hxy.
  - transitivity 0.
    + apply le_IZR. pose proof (Zceil_bound x).
      assert (IZR (Zceil x) < 1)%R as Hlt by lra.
      apply lt_IZR in Hlt. apply IZR_le. lia.
    + apply Zfloor_lub. lra.
  - lra.
  - apply Zfloor_le. exact Hxy.
Qed.

Lemma to_int32_IZR (z : Z) : to_int32 (IZR z) = z.
Proof.
  unfold to_int32. destruct (Rlt_dec (IZR z) 0).
  - unfold Zceil. rewrite <- opp_IZR, ZfloorZ. lia.
  - apply ZfloorZ.
Qed.

Lemma ln_le_mono (x y : R) : (0 < x)%R -> (x <= y)%R -> (ln x <= ln y)%R.
Proof.
  intros Hx [Hlt| ->]; [|lra]. left. apply ln_increasing; assumption.
Qed.

Lemma relative_position_bucket_eval (relative_position : Z)
    (bidirectional : bool) (num_buckets max_distance : Z) :
  let half := if bidirectional then num_buckets / 2 else num_buckets in
  0 < half / 2 -> 0 < max_distance -> max_distance <> half / 2 ->
  _relative_position_bucket relative_position bidirectional num_buckets
    max_distance =
  Ret (if bidirectional
       then Z.b2z (- relative_position <? 0) * half
            + bucket_of_distance (Z.abs (- relative_position)) half
                max_distance
       else bucket_of_distance (Z.max (- relative_position) 0) half
              max_distance).
Proof.
  intros half Hexact Hdist Hne. unfold _relative_position_bucket.
  assert (forall ret n,
    bind (py_truediv max_distance (half / 2)) (fun ratio =>
    bind (math_log ratio) (fun log_ratio =>
    if Req_dec_T log_ratio 0 then Raise ZeroDivisionError
    else
      Ret (ret + (if n <? half / 2 then n
                  else Z.min
                         (half / 2
                          + to_int32 (ln (IZR n / IZR (half / 2)) / log_ratio
                                      * IZR (half - half / 2)))
                         (half - 1)))))
    = Ret (ret + bucket_of_distance n half max_distance)) as Heval.
  { intros ret n. unfold py_truediv.
    destruct (Z.eqb_spec (half / 2) 0) as [|_]; [lia|]. cbn [bind].
    assert (0 < IZR (half / 2))%R as Hme by (apply IZR_lt; lia).
    assert (0 < IZR max_distance)%R as Hmd by (apply IZR_lt; lia).
    assert (0 < IZR max_distance / IZR (half / 2))%R as Hratio
      by (apply Rdiv_lt_0_compat; assumption).
    unfold math_log.
    destruct (Rle_dec (IZR max_distance / IZR (half / 2)) 0) as [|_]; [lra|].
    cbn [bind].
    destruct (Req_dec_T (ln (IZR max_distance / IZR (half / 2))) 0)
      as [Hzero|_]; [|reflexivity].
    exfalso. rewrite <- ln_1 in Hzero.
    apply ln_inv in Hzero; [|assumption|lra].
    assert (IZR max_distance = IZR (half / 2)) as Heq.
    { apply Rmult_eq_reg_r with (/ IZR (half / 2))%R.
      - rewrite Rinv_r by lra. exact Hzero.
      - apply Rinv_neq_0_compat. lra. }
    apply eq_IZR in Heq. lia. }
  subst half. destruct bidirectional.
  - rewrite Heval. rewrite Z.add_0_l. reflexivity.
  - rewrite Heval. rewrite Z.add_0_l. reflexivity.
Qed.

(** Beyond the exact region the logarithmic term is not negative. *)
Lemma large_distance_term_nonneg (n num_buckets max_distance : Z) :
  1 <= num_buckets / 2 < max_distance -> num_buckets / 2 <= n ->
  (0 <= ln (IZR n / IZR (num_buckets / 2))
        / ln (IZR max_distance / IZR (num_buckets / 2))
        * IZR (num_buckets - num_buckets / 2))%R.
Proof.
  intros Hpar Hn. set (max_exact := num_buckets / 2) in *.
  assert (2 * max_exact <= num_buckets) as Hhalf
    by (unfold max_exact; apply Z.mul_div_le; lia).
  assert (0 < IZR max_exact)%R by (apply IZR_lt; lia).
  assert (IZR max_exact <= IZR n)%R by (apply IZR_le; lia).
  assert (IZR max_exact < IZR max_distance)%R by (apply IZR_lt; lia).
  assert (0 <= IZR (num_buckets - max_exact))%R by (apply IZR_le; lia).
  apply Rmult_le_pos; [|assumption].
  apply Rmult_le_pos.
  - rewrite <- ln_1. apply ln_le_mono; [lra|].
    apply Rmult_le_reg_r with (IZR max_exact); [assumption|].
    unfold Rdiv. rewrite Rmult_assoc, Rinv_l by lra. lra.
  - left. apply Rinv_0_lt_compat. rewrite <- ln_1.
    apply ln_increasing; [lra|].
    apply Rmult_lt_reg_r with (IZR max_exact); [assumption|].
    unfold Rdiv. rewrite Rmult_assoc, Rinv_l by lra. lra.
Qed.

Lemma bucket_of_distance_range (n num_buckets max_distance : Z) :
  1 <= num_buckets / 2 < max_distance -> 0 <= n ->
  0 <= bucket_of_distance n num_buckets max_distance < num_buckets.
Proof.
  intros Hpar Hn. unfold bucket_of_distance.
  assert (2 * (num_buckets / 2) <= num_buckets) as Hhalf
    by (apply Z.mul_div_le; lia).
  destruct (Z.ltb_spec n (num_buckets / 2)) as [Hsmall|Hlarge]; [lia|].
  pose proof (to_int32_nonneg _
                (large_distance_term_nonneg n num_buckets max_distance Hpar
                   Hlarge)).
  lia.
Qed.

Lemma bucket_of_distance_mono (n1 n2 num_buckets max_distance : Z) :
  1 <= num_buckets / 2 < max_distance -> 0 <= n1 <= n2 ->
  bucket_of_distance n1 num_buckets max_distance
  <= bucket_of_distance n2 num_buckets max_distance.
Proof.
  intros Hpar Hn. unfold bucket_of_distance.
  assert (2 * (num_buckets / 2) <= num_buckets) as Hhalf
    by (apply Z.mul_div_le; lia).
  destruct (Z.ltb_spec n1 (num_buckets / 2)) as [Hs1|Hl1];
    destruct (Z.ltb_spec n2 (num_buckets / 2)) as [Hs2|Hl2]; try lia.
  - (* n1 in the exact region, n2 beyond it *)
    pose proof (to_int32_nonneg _
                  (large_distance_term_nonneg n2 num_buckets max_distance
                     Hpar Hl2)).
    lia.
  - (* both beyond the exact region *)
    apply Z.min_le_compat_r, Z.add_le_mono_l, to_int32_le.
    set (max_exact := num_buckets / 2) in *.
    assert (0 < IZR max_exact)%R by (apply IZR_lt; lia).
    assert (IZR max_exact <= IZR n1)%R by (apply IZR_le; lia).
    assert (IZR n1 <= IZR n2)%R by (apply IZR_le; lia).
    assert (IZR max_exact < IZR max_distance)%R by (apply IZR_lt; lia).
    assert (0 <= IZR (num_buckets - max_exact))%R by (apply IZR_le; lia).
    apply Rmult_le_compat_r; [assumption|].
    apply Rmult_le_compat_r.
    + left. apply Rinv_0_lt_compat. rewrite <- ln_1.
      apply ln_increasing; [lra|].
      apply Rmult_lt_reg_r with (IZR max_exact); [assumption|].
      unfold Rdiv. rewrite Rmult_assoc, Rinv_l by lra. lra.
    + apply ln_le_mono.
      * apply Rdiv_lt_0_compat; lra.
      * apply Rmult_le_compat_r; [|assumption].
        left. apply Rinv_0_lt_compat. assumption.
Qed.

(** When the exact region is not empty and ends before max_distance
    (1 <= max_exact < max_distance, max_exact being num_buckets // 2 after
    the bidirectional halving), [_relative_position_bucket] returns, for
    every integer relative position and in both modes, a bucket in
    [0, num_buckets). *)
Theorem relative_position_bucket_in_range (relative_position : Z)
    (bidirectional : bool) (num_buckets max_distance : Z) :
  let half := if bidirectional then num_buckets / 2 else num_buckets in
  1 <= half / 2 < max_distance ->
  exists bucket,
    _relative_position_bucket relative_position bidirectional num_buckets
      max_distance = Ret bucket /\
    0 <= bucket < num_buckets.
Proof.
  intros half Hpar.
  rewrite relative_position_bucket_eval by (fold half; lia).
  fold half. eexists. split; [reflexivity|].
  destruct bidirectional.
  - pose proof (bucket_of_distance_range (Z.abs (- relative_position)) half
                  max_distance Hpar ltac:(lia)).
    assert (2 * half <= num_buckets)
      by (unfold half; apply Z.mul_div_le; lia).
    destruct (- relative_position <? 0); cbn [Z.b2z]; lia.
  - pose proof (bucket_of_distance_range (Z.max (- relative_position) 0) half
                  max_distance Hpar ltac:(lia)).
    subst half. lia.
Qed.

(** When 1 <= max_exact < max_distance, the bucket does not decrease with
    the magnitude of the offset, on either side of zero and in both modes. *)
Theorem relative_position_bucket_monotone (a b : Z) (bidirectional : bool)
    (num_buckets max_distance : Z) :
  let half := if bidirectional then num_buckets / 2 else num_buckets in
  1 <= half / 2 < max_distance ->
  0 <= a < b ->
  exists bucket_a bucket_b bucket_neg_a bucket_neg_b,
    _relative_position_bucket a bidirectional num_buckets max_distance =
      Ret bucket_a /\
    _relative_position_bucket b bidirectional num_buckets max_distance =
      Ret bucket_b /\
    bucket_a <= bucket_b /\
    _relative_position_bucket (- a) bidirectional num_buckets max_distance =
      Ret bucket_neg_a /\
    _relative_position_bucket (- b) bidirectional num_buckets max_distance =
      Ret bucket_neg_b /\
    bucket_neg_a <= bucket_neg_b.
Proof.
  intros half Hpar Hab.
  rewrite !relative_position_bucket_eval by (fold half; lia).
  fold half. do 4 eexists.
  split; [reflexivity|]. split; [reflexivity|].
  split; [|split; [reflexivity|split; [reflexivity|]]].
  - (* offsets a < b *)
    destruct bidirectional.
    + pose proof (bucket_of_distance_mono (Z.abs (- a)) (Z.abs (- b)) half
                    max_distance Hpar ltac:(lia)).
      pose proof (bucket_of_distance_range (Z.abs (- b)) half max_distance
                    Hpar ltac:(lia)).
      destruct (Z.ltb_spec (- a) 0); destruct (Z.ltb_spec (- b) 0);
        cbn [Z.b2z]; lia.
    + apply bucket_of_distance_mono; [exact Hpar|lia].
  - (* offsets -a > -b *)
    destruct bidirectional.
    + pose proof (bucket_of_distance_mono (Z.abs (- - a)) (Z.abs (- - b)) half
                    max_distance Hpar ltac:(lia)).
      destruct (Z.ltb_spec (- - a) 0); destruct (Z.ltb_spec (- - b) 0);
        cbn [Z.b2z]; lia.
    + apply bucket_of_distance_mono; [exact Hpar|lia].
Qed.

Lemma bucket_of_distance_2048_512_128 :
  bucket_of_distance 2048 512 128 = -512.
Proof.
  unfold bucket_of_distance. change (512 / 2) with 256.
  change (2048 <? 256) with false. change (512 - 256) with 256.
  assert (ln (IZR 2048 / IZR 256) / ln (IZR 128 / IZR 256) * IZR 256
          = IZR (-768))%R as ->.
  { replace (IZR 2048 / IZR 256)%R with (2 ^ 3)%R by lra.
    replace (IZR 128 / IZR 256)%R with (/ 2)%R by lra.
    rewrite ln_pow, ln_Rinv by lra.
    pose proof ln_lt_2. cbn [INR]. field. lra. }
  rewrite to_int32_IZR. reflexivity.
Qed.

Lemma bucket_of_distance_256_512_128 :
  bucket_of_distance 256 512 128 = 256.
Proof.
  unfold bucket_of_distance. change (512 / 2) with 256.
  change (256 <? 256) with false. change (512 - 256) with 256.
  assert (ln (IZR 256 / IZR 256) / ln (IZR 128 / IZR 256) * IZR 256
          = IZR 0)%R as ->.
  { replace (IZR 256 / IZR 256)%R with 1%R by lra.
    rewrite ln_1. unfold Rdiv. rewrite !Rmult_0_l. reflexivity. }
  rewrite to_int32_IZR. reflexivity.
Qed.

End BucketFacts.

Lemma relative_position_bucket_in_range_witness :
  exists bucket,
    _relative_position_bucket (-1000) true 32 128 = Ret bucket /\
    (0 <= bucket < 32)%Z.
Proof.
  apply (relative_position_bucket_in_range (-1000) true 32 128).
  cbn iota zeta. Z.div_mod_to_equations. lia.
Defined.

(** C6, on failing inputs: the bucket is not always in [0, num_buckets).
    With num_buckets = 2 in the (default) bidirectional mode the exact
    region is empty and the function raises instead of returning a bucket;
    with num_buckets = 512, unidirectional, and the default max_distance =
    128, the offset -2048 gets the bucket -512. *)
Lemma relative_position_bucket_out_of_range :
  _relative_position_bucket 0 true 2 128 = Raise ZeroDivisionError /\
  _relative_position_bucket (-2048) false 512 128 = Ret (-512)%Z /\
  ~ (0 <= -512 < 512)%Z.
Proof.
  split; [reflexivity|]. split; [|lia].
  rewrite relative_position_bucket_eval
    by (cbn iota zeta; Z.div_mod_to_equations; lia).
  change (Z.max (- -2048) 0) with 2048%Z.
  rewrite bucket_of_distance_2048_512_128. reflexivity.
Qed.

Lemma relative_position_bucket_monotone_witness :
  exists bucket_a bucket_b bucket_neg_a bucket_neg_b,
    _relative_position_bucket 3 true 32 128 = Ret bucket_a /\
    _relative_position_bucket 100 true 32 128 = Ret bucket_b /\
    (bucket_a <= bucket_b)%Z /\
    _relative_position_bucket (- 3) true 32 128 = Ret bucket_neg_a /\
    _relative_position_bucket (- 100) true 32 128 = Ret bucket_neg_b /\
    (bucket_neg_a <= bucket_neg_b)%Z.
Proof.
  apply (relative_position_bucket_monotone 3 100 true 32 128);
    cbn iota zeta; Z.div_mod_to_equations; lia.
Defined.

(** C7, on failing inputs: the bucket is not always monotonic in the offset
    magnitude.  With num_buckets = 1024 (bidirectional) or 512
    (unidirectional) and the default max_distance = 128, the offsets of
    magnitude 256 and 2048 get buckets in decreasing order. *)
Lemma relative_position_bucket_not_monotone :
  (0 <= 256 < 2048)%Z /\
  _relative_position_bucket 256 true 1024 128 = Ret 768%Z /\
  _relative_position_bucket 2048 true 1024 128 = Ret 0%Z /\
  _relative_position_bucket (-256) false 512 128 = Ret 256%Z /\
  _relative_position_bucket (-2048) false 512 128 = Ret (-512)%Z /\
  ~ (768 <= 0)%Z /\ ~ (256 <= -512)%Z.
Proof.
  split; [lia|].
  rewrite !relative_position_bucket_eval
    by (cbn iota zeta; Z.div_mod_to_equations; lia).
  change (1024 / 2)%Z with 512%Z.
  change (Z.abs (Z.opp 256)) with 256%Z.
  change (Z.abs (Z.opp 2048)) with 2048%Z.
  change (Z.max (- -256) 0) with 256%Z.
  change (Z.max (- -2048) 0) with 2048%Z.
  rewrite bucket_of_distance_2048_512_128, bucket_of_distance_256_512_128.
  repeat split; try reflexivity; lia.
Qed.

(** ** Sums over an axis *)

Section SumFacts.

Lemma sum_list_R_app (l1 l2 : list R) :
  sum_list_R (l1 ++ l2) = sum_list_R l1 + sum_list_R l2.
Proof.
  unfold sum_list_R. induction l1 as [|a l1 IH]; cbn [foldr app].
  - lra.
  - rewrite IH. lra.
Qed.

Lemma sum_list_R_perm (l1 l2 : list R) :
  l1 ≡ₚ l2 -> sum_list_R l1 = sum_list_R l2.
Proof.
  unfold sum_list_R.
  induction 1 as [|a l1 l2 _ IH|a b l|l1 l2 l3 _ IH1 _ IH2]; cbn [foldr].
  - reflexivity.
  - rewrite IH. reflexivity.
  - lra.
  - congruence.
Qed.

Lemma sumR_ext (n : nat) (f g : nat -> R) :
  (forall i, (i < n)%nat -> f i = g i) -> sumR n f = sumR n g.
Proof.
  intros Hfg. unfold sumR, tab. f_equal. apply list_fmap_ext.
  intros i x Hx. apply lookup_seq in Hx. destruct Hx as [-> Hlt].
  apply Hfg. lia.
Qed.

Lemma sumR_zero (n : nat) (f : nat -> R) :
  (forall i, (i < n)%nat -> f i = 0) -> sumR n f = 0.
Proof.
  intros Hf. rewrite (sumR_ext n f (fun _ => 0) Hf).
  unfold sumR, tab, sum_list_R.
  induction (seq 0 n) as [|a l IH]; cbn [fmap list_fmap foldr];
    [reflexivity|].
  change (list_fmap nat R (fun _ : nat => 0) l)
    with ((fun _ : nat => 0) <$> l).
  rewrite IH. lra.
Qed.

Lemma sumR_split (a b : nat) (f : nat -> R) :
  sumR (a + b) f = sumR a f + sumR b (fun i => f (a + i)%nat).
Proof.
  unfold sumR, tab. rewrite seq_app, fmap_app, sum_list_R_app. f_equal.
  f_equal. cbn [Nat.add].
  replace (seq a b) with (Nat.add a <$> seq 0 b)
    by (rewrite fmap_add_seq; f_equal; lia).
  rewrite <- list_fmap_compose. reflexivity.
Qed.

(** Reindexing a sum by a map that is injective on the axis. *)
Lemma sumR_reindex (n : nat) (sigma : nat -> nat) (f : nat -> R) :
  (forall i, (i < n)%nat -> (sigma i < n)%nat) ->
  (forall i j, (i < n)%nat -> (j < n)%nat -> sigma i = sigma j -> i = j) ->
  sumR n (fun i => f (sigma i)) = sumR n f.
Proof.
  intros Hrange Hinj. unfold sumR, tab.
  rewrite (list_fmap_compose sigma f). apply sum_list_R_perm.
  apply fmap_Permutation. apply submseteq_length_Permutation.
  - apply NoDup_submseteq.
    + apply NoDup_fmap_2_strong; [|apply NoDup_seq].
      intros i j Hi Hj. apply elem_of_seq in Hi, Hj.
      apply Hinj; lia.
    + intros y Hy. apply list_elem_of_fmap in Hy.
      destruct Hy as (i & -> & Hi). apply elem_of_seq in Hi.
      apply elem_of_seq. pose proof (Hrange i ltac:(lia)). lia.
  - rewrite length_fmap. reflexivity.
Qed.

(** A sum over a memory of [block + block] slots whose terms vanish outside
    the window [(i, i + block]] is the sum over the lags [r < block]. *)
Lemma sumR_window (block i : nat) (f : nat -> R) :
  (i < block)%nat ->
  (forall j, (j < block + block)%nat -> ~ (i < j <= i + block)%nat ->
             f j = 0) ->
  sumR (block + block) f = sumR block (fun r => f (i + block - r)%nat).
Proof.
  intros Hi Hzero.
  replace (block + block)%nat with (S i + (block + (block - S i)))%nat by lia.
  rewrite sumR_split, sumR_split.
  rewrite (sumR_zero (S i)) by (intros j Hj; apply Hzero; lia).
  rewrite (sumR_zero (block - S i)) by (intros j Hj; apply Hzero; lia).
  rewrite <- (sumR_reindex block (fun r => (block - 1 - r)%nat)
                (fun u => f (S i + u)%nat)) by (intros; lia).
  rewrite Rplus_0_l, Rplus_0_r. apply sumR_ext.
  intros r Hr. f_equal. lia.
Qed.

(** The slot of lag [r] at step [t] in a circular window of [n] slots. *)
Lemma sumR_rotate (n t : nat) (f : nat -> R) :
  (0 < n)%nat ->
  sumR n (fun s => f ((t + n - s) mod n)%nat) = sumR n f.
Proof.
  intros Hn. apply (sumR_reindex n (fun s => ((t + n - s) mod n)%nat)).
  - intros s Hs. apply Nat.mod_upper_bound. lia.
  - intros s1 s2 Hs1 Hs2 Heq.
    pose proof (Nat.div_mod_eq (t + n - s1) n) as E1.
    pose proof (Nat.div_mod_eq (t + n - s2) n) as E2.
    rewrite Heq in E1.
    set (q1 := ((t + n - s1) / n)%nat) in *.
    set (q2 := ((t + n - s2) / n)%nat) in *.
    set (m := ((t + n - s2) mod n)%nat) in *.
    assert (n * q1 + s1 = n * q2 + s2)%nat as Hq by lia.
    destruct (Nat.lt_trichotomy q1 q2) as [Hlt|[Heq'|Hgt]].
    + assert (n * S q1 <= n * q2)%nat by (apply Nat.mul_le_mono_l; lia). lia.
    + subst q2. lia.
    + assert (n * S q2 <= n * q1)%nat by (apply Nat.mul_le_mono_l; lia). lia.
Qed.

End SumFacts.

(** ** More on sums *)

Section SumAlgebra.

Lemma sumR_S (n : nat) (f : nat -> R) : sumR (S n) f = sumR n f + f n.
Proof.
  replace (S n) with (n + 1)%nat by lia. rewrite sumR_split.
  unfold sumR at 2. unfold tab. cbn [seq fmap list_fmap].
  unfold sum_list_R. cbn [foldr]. rewrite Nat.add_0_r. lra.
Qed.

Lemma sumR_0 (f : nat -> R) : sumR 0 f = 0.
Proof. reflexivity. Qed.

Lemma sumR_plus (n : nat) (f g : nat -> R) :
  sumR n (fun i => f i + g i) = sumR n f + sumR n g.
Proof.
  induction n as [|n IH]; [rewrite !sumR_0; lra|].
  rewrite !sumR_S, IH. lra.
Qed.

Lemma sumR_mult_l (n : nat) (c : R) (f : nat -> R) :
  sumR n (fun i => c * f i) = c * sumR n f.
Proof.
  induction n as [|n IH]; [rewrite !sumR_0; lra|].
  rewrite !sumR_S, IH. lra.
Qed.

Lemma sumR_mult_r (n : nat) (c : R) (f : nat -> R) :
  sumR n (fun i => f i * c) = sumR n f * c.
Proof.
  induction n as [|n IH]; [rewrite !sumR_0; lra|].
  rewrite !sumR_S, IH. lra.
Qed.

Lemma sumR_const (n : nat) (c : R) : sumR n (fun _ => c) = INR n * c.
Proof.
  induction n as [|n IH]; [rewrite sumR_0; cbn [INR]; lra|].
  rewrite sumR_S, IH, S_INR. lra.
Qed.

Lemma sumR_le (n : nat) (f g : nat -> R) :
  (forall i, (i < n)%nat -> f i <= g i) -> sumR n f <= sumR n g.
Proof.
  induction n as [|n IH]; intros Hfg; [rewrite !sumR_0; lra|].
  rewrite !sumR_S. pose proof (Hfg n ltac:(lia)).
  assert (sumR n f <= sumR n g) by (apply IH; intros; apply Hfg; lia).
  lra.
Qed.

Lemma sumR_nonneg (n : nat) (f : nat -> R) :
  (forall i, (i < n)%nat -> 0 <= f i) -> 0 <= sumR n f.
Proof.
  intros Hf. rewrite <- (sumR_zero n (fun _ => 0)) by reflexivity.
  apply sumR_le. exact Hf.
Qed.

Lemma sumR_1 (f : nat -> R) : sumR 1 f = f 0%nat.
Proof. rewrite sumR_S, sumR_0. lra. Qed.

(** A term of a sum of non-negative terms is at most the sum. *)
Lemma sumR_term_le (n : nat) (f : nat -> R) (k : nat) :
  (forall i, (i < n)%nat -> 0 <= f i) -> (k < n)%nat -> f k <= sumR n f.
Proof.
  intros Hf Hk. remember (n - S k)%nat as m eqn:Hm.
  assert (n = k + (1 + m))%nat as Hn by lia.
  rewrite Hn, sumR_split, sumR_split, sumR_1, Nat.add_0_r.
  assert (0 <= sumR k f) by (apply sumR_nonneg; intros; apply Hf; lia).
  assert (0 <= sumR m (fun i => f (k + (1 + i))%nat))
    by (apply sumR_nonneg; intros; apply Hf; lia).
  lra.
Qed.

(** A sum with a single term that is not zero. *)
Lemma sumR_single (n : nat) (f : nat -> R) (k : nat) :
  (k < n)%nat -> (forall i, (i < n)%nat -> i <> k -> f i = 0) ->
  sumR n f = f k.
Proof.
  intros Hk Hzero. remember (n - S k)%nat as m eqn:Hm.
  assert (n = k + (1 + m))%nat as Hn by lia.
  rewrite Hn, sumR_split, sumR_split, sumR_1, Nat.add_0_r.
  rewrite (sumR_zero k) by (intros; apply Hzero; lia).
  rewrite (sumR_zero m) by (intros; apply Hzero; lia).
  lra.
Qed.

Lemma sumR_all_zero (n : nat) (f : nat -> R) :
  (forall i, (i < n)%nat -> f i = 0) -> sumR n f = 0.
Proof. apply sumR_zero. Qed.

(** A sum over groups of [b] consecutive indices. *)
Lemma sumR_groups (a b : nat) (f : nat -> R) :
  sumR (a * b) f = sumR a (fun g => sumR b (fun u => f (g * b + u)%nat)).
Proof.
  induction a as [|a IH]; [reflexivity|].
  rewrite sumR_S, <- IH.
  replace (S a * b)%nat with (a * b + b)%nat by lia.
  apply sumR_split.
Qed.

End SumAlgebra.

(** ** Maxima over an axis *)

Section MaxFacts.

Lemma foldr_Rmax_spec (a : R) (l : list R) :
  (forall y, y ∈ a :: l -> y <= foldr Rmax a l) /\ foldr Rmax a l ∈ a :: l.
Proof.
  induction l as [|b l [IHub IHin]].
  - cbn [foldr]. split; [|left].
    intros y Hy. apply list_elem_of_singleton in Hy. subst. lra.
  - cbn [foldr]. split.
    + intros y Hy. apply elem_of_cons in Hy. destruct Hy as [->|Hy].
      * pose proof (IHub a ltac:(left)). pose proof (Rmax_r b (foldr Rmax a l)).
        lra.
      * apply elem_of_cons in Hy. destruct Hy as [->|Hy].
        -- apply Rmax_l.
        -- pose proof (IHub y ltac:(right; exact Hy)).
           pose proof (Rmax_r b (foldr Rmax a l)). lra.
    + unfold Rmax at 1. destruct (Rle_dec b (foldr Rmax a l)).
      * apply elem_of_cons in IHin. destruct IHin as [->|Hin]; [left|].
        right. right. exact Hin.
      * right. left.
Qed.

Lemma maxR_ub (n : nat) (f : nat -> R) (j : nat) :
  (j < n)%nat -> f j <= maxR n f.
Proof.
  intros Hj. unfold maxR.
  pose proof (lookup_tab n f j Hj) as Hlookup.
  destruct (tab n f) as [|a l]; [discriminate|].
  apply foldr_Rmax_spec. eapply list_elem_of_lookup_2. exact Hlookup.
Qed.

Lemma maxR_attained (n : nat) (f : nat -> R) :
  (0 < n)%nat -> exists j, (j < n)%nat /\ maxR n f = f j.
Proof.
  intros Hn. unfold maxR.
  pose proof (lookup_tab n f 0 Hn) as Hlookup.
  pose proof (length_tab n f) as Hlen.
  assert (forall y, y ∈ tab n f -> exists j, (j < n)%nat /\ y = f j) as Hall.
  { intros y Hy. apply list_elem_of_lookup_1 in Hy. destruct Hy as [j Hy].
    assert (j < n)%nat as Hj
      by (rewrite <- Hlen; eapply lookup_lt_Some; exact Hy).
    rewrite (lookup_tab n f j Hj) in Hy. exists j. split; [exact Hj|].
    congruence. }
  destruct (tab n f) as [|a l]; [discriminate|].
  apply Hall. apply foldr_Rmax_spec.
Qed.

Lemma maxR_unique (n : nat) (f : nat -> R) (m : R) :
  (forall j, (j < n)%nat -> f j <= m) ->
  (exists j, (j < n)%nat /\ m = f j) ->
  maxR n f = m.
Proof.
  intros Hub (j & Hj & ->).
  destruct (maxR_attained n f ltac:(lia)) as (j' & Hj' & Hmax).
  pose proof (maxR_ub n f j Hj). pose proof (Hub j' Hj'). lra.
Qed.

Lemma maxR_ext (n : nat) (f g : nat -> R) :
  (forall j, (j < n)%nat -> f j = g j) -> maxR n f = maxR n g.
Proof.
  intros Hfg. unfold maxR. rewrite (tab_ext n f g Hfg). reflexivity.
Qed.

End MaxFacts.

(** ** The kernel on a window *)

Section KernelWindowFacts.

Variable fexp : R -> R.
Variable depth : nat.

Lemma get1_zeros (n c : nat) : get1 (zeros n) c = 0.
Proof.
  unfold get1, zeros. destruct (replicate n 0 !! c) as [y|] eqn:Hy;
    [|reflexivity].
  apply lookup_replicate in Hy. destruct Hy as [-> _]. reflexivity.
Qed.

Lemma attention_row_entry (length_kv : nat) (q : list R)
    (k v : list (list R)) (mask : option (nat -> R)) (d : nat) :
  (d < depth)%nat ->
  get1 (dot_product_attention_row fexp depth depth length_kv q k v mask) d =
    sumR length_kv (fun j =>
      fexp (slot_logit depth q k mask j
            - slots_logsumexp fexp length_kv (slot_logit depth q k mask))
      * get2 v j d).
Proof.
  intros Hd. unfold dot_product_attention_row.
  rewrite get1_tab by lia. apply sumR_ext. intros j Hj.
  unfold softmax. rewrite get1_tab by lia.
  assert (forall j', (j' < length_kv)%nat ->
            get1 (attention_logits depth length_kv q k mask) j'
            = slot_logit depth q k mask j') as Hlogit.
  { intros j' Hj'. rewrite attention_logits_entry by lia.
    unfold slot_logit. destruct mask; reflexivity. }
  unfold reduce_logsumexp, slots_logsumexp.
  rewrite (maxR_ext length_kv _ (slot_logit depth q k mask) Hlogit).
  rewrite (sumR_ext length_kv
             (fun j' =>
                fexp (get1 (attention_logits depth length_kv q k mask) j'
                      - maxR length_kv (slot_logit depth q k mask)))
             (fun j' =>
                fexp (slot_logit depth q k mask j'
                      - maxR length_kv (slot_logit depth q k mask))))
    by (intros j' Hj'; rewrite Hlogit by lia; reflexivity).
  rewrite Hlogit by lia. reflexivity.
Qed.

Lemma length_attention_row (length_kv : nat) (q : list R)
    (k v : list (list R)) (mask : option (nat -> R)) :
  length (dot_product_attention_row fexp depth depth length_kv q k v mask)
  = depth.
Proof. unfold dot_product_attention_row. apply length_tab. Qed.

Lemma list_eq_get1 (l1 l2 : list R) (n : nat) :
  length l1 = n -> length l2 = n ->
  (forall d, (d < n)%nat -> get1 l1 d = get1 l2 d) -> l1 = l2.
Proof.
  intros H1 H2 Hget. apply list_eq_same_length with n; try assumption.
  intros d a b Hd Ha Hb. specialize (Hget d Hd). unfold get1 in Hget.
  rewrite Ha, Hb in Hget. exact Hget.
Qed.

(** Two kernels give the same output when their log-sum-exps agree and
    their weighted sums agree at that log-sum-exp. *)
Lemma attention_row_eq (n m : nat) (q : list R) (k v k' v' : list (list R))
    (mask mask' : option (nat -> R)) :
  slots_logsumexp fexp n (slot_logit depth q k mask)
    = slots_logsumexp fexp m (slot_logit depth q k' mask') ->
  (forall d, (d < depth)%nat ->
     sumR n (fun j =>
       fexp (slot_logit depth q k mask j
             - slots_logsumexp fexp m (slot_logit depth q k' mask'))
       * get2 v j d)
     = sumR m (fun r =>
         fexp (slot_logit depth q k' mask' r
               - slots_logsumexp fexp m (slot_logit depth q k' mask'))
         * get2 v' r d)) ->
  dot_product_attention_row fexp depth depth n q k v mask =
  dot_product_attention_row fexp depth depth m q k' v' mask'.
Proof.
  intros Hlse Hsum.
  apply list_eq_get1 with depth; try apply length_attention_row.
  intros d Hd. rewrite !attention_row_entry by lia.
  rewrite Hlse. apply Hsum. exact Hd.
Qed.

(** The sum of the shifted exponentials is at least one: the largest logit
    contributes the exponential of zero. *)
Lemma shifted_sum_ge_1 (n : nat) (a : nat -> R) :
  fexp 0 = 1 -> (forall z, 0 <= fexp z) -> (0 < n)%nat ->
  1 <= sumR n (fun j => fexp (a j - maxR n a)).
Proof.
  intros Hone Hnonneg Hn.
  destruct (maxR_attained n a Hn) as (j & Hj & Hmax).
  pose proof (sumR_term_le n (fun j => fexp (a j - maxR n a)) j
                (fun i _ => Hnonneg _) Hj) as Hle.
  cbn beta in Hle. rewrite Hmax in Hle at 1.
  replace (a j - a j) with 0 in Hle by lra. rewrite Hone in Hle.
  exact Hle.
Qed.

Lemma logsumexp_ge_max (n : nat) (a : nat -> R) :
  fexp 0 = 1 -> (forall z, 0 <= fexp z) -> (0 < n)%nat ->
  maxR n a <= slots_logsumexp fexp n a.
Proof.
  intros Hone Hnonneg Hn. unfold slots_logsumexp.
  pose proof (shifted_sum_ge_1 n a Hone Hnonneg Hn) as Hge.
  pose proof (ln_le_mono 1 _ ltac:(lra) Hge) as Hln.
  rewrite ln_1 in Hln. lra.
Qed.

(** The kernel does not depend on the order of the memory slots: a window
    read in circular order gives the same output as the window in order of
    lag. *)
Lemma attention_row_rotate (n t : nat) (q : list R)
    (k v k' v' : list (list R)) :
  (0 < n)%nat ->
  (forall s, (s < n)%nat ->
     row k s = row k' ((t + n - s) mod n) /\
     row v s = row v' ((t + n - s) mod n)) ->
  dot_product_attention_row fexp depth depth n q k v None =
  dot_product_attention_row fexp depth depth n q k' v' None.
Proof.
  intros Hn Hrows.
  set (sigma := fun s => ((t + n - s) mod n)%nat).
  assert (forall s, (s < n)%nat -> (sigma s < n)%nat) as Hrange
    by (intros s Hs; apply Nat.mod_upper_bound; lia).
  assert (forall s, (s < n)%nat -> sigma (sigma s) = s) as Hinv.
  { intros s Hs. unfold sigma.
    pose proof (Nat.div_mod_eq (t + n - s) n) as Hdm.
    pose proof (Nat.mod_upper_bound (t + n - s) n ltac:(lia)) as Hlt.
    symmetry. apply Nat.mod_unique with (q := ((t + n - s) / n)%nat); lia. }
  assert (forall s, (s < n)%nat ->
            slot_logit depth q k None s = slot_logit depth q k' None (sigma s)) as Hlogit.
  { intros s Hs. unfold slot_logit, get2.
    destruct (Hrows s Hs) as [-> _]. reflexivity. }
  assert (maxR n (slot_logit depth q k None) = maxR n (slot_logit depth q k' None))
    as Hmax.
  { apply maxR_unique.
    - intros s Hs. rewrite Hlogit by exact Hs. apply maxR_ub.
      apply Hrange. exact Hs.
    - destruct (maxR_attained n (slot_logit depth q k' None) Hn)
        as (j & Hj & Hatt).
      exists (sigma j). split; [apply Hrange; exact Hj|].
      rewrite Hlogit by (apply Hrange; exact Hj).
      rewrite Hinv by exact Hj. exact Hatt. }
  apply attention_row_eq.
  - unfold slots_logsumexp. rewrite Hmax. f_equal. f_equal.
    rewrite <- (sumR_rotate n t
                  (fun j => fexp (slot_logit depth q k' None j
                                  - maxR n (slot_logit depth q k' None)))) by lia.
    apply sumR_ext. intros s Hs. rewrite Hlogit by exact Hs. reflexivity.
  - intros d Hd.
    rewrite <- (sumR_rotate n t
                  (fun j =>
                     fexp (slot_logit depth q k' None j
                           - slots_logsumexp fexp n (slot_logit depth q k' None))
                     * get2 v' j d)) by lia.
    apply sumR_ext. intros s Hs. rewrite Hlogit by exact Hs.
    unfold get2, sigma. destruct (Hrows s Hs) as [_ ->]. reflexivity.
Qed.

(** With a mask that hides all but the window [(i, i + block]] of a memory
    of [block + block] slots, and hidden logits that lie 5e8 below the
    logits of the window, so that their weights underflow to zero, the
    kernel gives the same output as on the window in order of lag, without
    mask. *)
Lemma attention_row_window (block i : nat) (q : list R)
    (k v k' v' : list (list R)) (mask : nat -> R) :
  (forall z, z <= -5e8 -> fexp z = 0) ->
  fexp 0 = 1 -> (forall z, 0 <= fexp z) ->
  (i < block)%nat ->
  (forall j r, (j < block + block)%nat -> ~ (i < j <= i + block)%nat ->
     (r < block)%nat ->
     slot_logit depth q k (Some mask) j + 5e8 <= slot_logit depth q k' None r) ->
  (forall r, (r < block)%nat ->
     mask (i + block - r)%nat = 0 /\
     row k (i + block - r) = row k' r /\
     row v (i + block - r) = row v' r) ->
  dot_product_attention_row fexp depth depth (block + block) q k v
    (Some mask) =
  dot_product_attention_row fexp depth depth block q k' v' None.
Proof.
  intros Hunder Hone Hnonneg Hi Hhidden Hrows.
  set (a := slot_logit depth q k (Some mask)).
  set (b := slot_logit depth q k' None).
  assert (forall r, (r < block)%nat -> a (i + block - r)%nat = b r) as Hvis.
  { intros r Hr. unfold a, b, slot_logit, get2.
    destruct (Hrows r Hr) as (-> & -> & _). lra. }
  destruct (maxR_attained block b ltac:(lia)) as (r0 & Hr0 & Hatt).
  assert (forall j, (j < block + block)%nat -> ~ (i < j <= i + block)%nat ->
            a j + 5e8 <= maxR block b) as Hlow.
  { intros j Hj Hout. rewrite Hatt. apply Hhidden; assumption. }
  assert (maxR (block + block) a = maxR block b) as Hmax.
  { apply maxR_unique.
    - intros j Hj.
      destruct (Nat.lt_ge_cases i j) as [Hij|Hij];
        [destruct (Nat.le_gt_cases j (i + block)) as [Hjb|Hjb]|].
      + replace j with (i + block - (i + block - j))%nat by lia.
        rewrite Hvis by lia. apply maxR_ub. lia.
      + pose proof (Hlow j Hj ltac:(lia)). lra.
      + pose proof (Hlow j Hj ltac:(lia)). lra.
    - exists (i + block - r0)%nat. split; [lia|].
      rewrite Hvis by exact Hr0. exact Hatt. }
  assert (sumR (block + block) (fun j => fexp (a j - maxR block b))
          = sumR block (fun r => fexp (b r - maxR block b))) as Hsum.
  { rewrite (sumR_window block i); [|exact Hi|].
    - apply sumR_ext. intros r Hr. rewrite Hvis by exact Hr. reflexivity.
    - intros j Hj Hout. apply Hunder. pose proof (Hlow j Hj Hout). lra. }
  pose proof (logsumexp_ge_max block b Hone Hnonneg ltac:(lia)) as Hge.
  apply attention_row_eq; fold a b.
  - unfold slots_logsumexp. rewrite Hmax, Hsum. reflexivity.
  - intros d Hd. rewrite (sumR_window block i); [|exact Hi|].
    + apply sumR_ext. intros r Hr. rewrite Hvis by exact Hr.
      unfold get2. destruct (Hrows r Hr) as (_ & _ & ->). reflexivity.
    + intros j Hj Hout. rewrite Hunder; [lra|].
      pose proof (Hlow j Hj Hout). lra.
Qed.

End KernelWindowFacts.

(** ** The circular window of the incremental decoder *)

Section WindowFacts.

Variables heads kv_channels : nat.
Variable window_length : nat.
Hypothesis window_length_pos : (0 < window_length)%nat.

Lemma current_slot_lag (step s : nat) :
  s = (step mod window_length)%nat ->
  ((step + window_length - s) mod window_length = 0)%nat.
Proof.
  intros ->. pose proof (Nat.div_mod_eq step window_length) as Hdm.
  pose proof (Nat.mod_upper_bound step window_length ltac:(lia)) as Hlt.
  symmetry. apply Nat.mod_unique with (q := S (step / window_length)); lia.
Qed.

Lemma next_step_lag (step s : nat) :
  (s < window_length)%nat ->
  s <> (S step mod window_length)%nat ->
  ((S step + window_length - s) mod window_length
   = S ((step + window_length - s) mod window_length))%nat.
Proof.
  intros Hs Hne.
  pose proof (Nat.div_mod_eq (step + window_length - s) window_length) as Hdm.
  pose proof (Nat.mod_upper_bound (step + window_length - s) window_length
                ltac:(lia)) as Hlt.
  set (q := ((step + window_length - s) / window_length)%nat) in *.
  set (r := ((step + window_length - s) mod window_length)%nat) in *.
  destruct (Nat.eq_dec (S r) window_length) as [Hwrap|Hnowrap].
  - exfalso. apply Hne.
    apply Nat.mod_unique with (q := q); [lia|].
    assert (window_length * S q = window_length * q + window_length)%nat
      by lia.
    lia.
  - symmetry. apply Nat.mod_unique with (q := q); lia.
Qed.

Lemma zero_state_awaits (t : list (list (list R))) :
  window_awaits heads kv_channels window_length t
    (zero_state heads kv_channels window_length) 0.
Proof.
  intros h s Hh Hs Hne. unfold zero_state. rewrite !row_tab by lia.
  rewrite Nat.Div0.mod_0_l in Hne.
  cbn [Nat.add]. rewrite Nat.mod_small by lia.
  unfold lagged. destruct (Nat.leb_spec (window_length - s) 0); [lia|].
  reflexivity.
Qed.

Lemma where_position_holds (t st : list (list (list R))) (k : list (list R))
    (step : nat) :
  window_awaits heads kv_channels window_length t st step ->
  (forall h, (h < heads)%nat -> row k h = row (row t h) step) ->
  window_holds heads kv_channels window_length t
    (where_position heads window_length
       ((fun s => (s =? Z.of_nat step mod Z.of_nat window_length)%Z)
          <$> range window_length) k st)
    step.
Proof.
  intros Hawaits Hk h s Hh Hs. rewrite where_position_row by lia.
  rewrite <- Nat2Z.inj_mod.
  destruct (Z.eqb_spec (Z.of_nat s) (Z.of_nat (step mod window_length)))
    as [Heq|Hne].
  - apply Nat2Z.inj in Heq. rewrite (current_slot_lag step s Heq).
    unfold lagged. cbn [Nat.leb]. rewrite Nat.sub_0_r. apply Hk. exact Hh.
  - apply Hawaits; [assumption..|]. intros ->. apply Hne. reflexivity.
Qed.

Lemma window_holds_awaits_next (t st : list (list (list R))) (step : nat) :
  window_holds heads kv_channels window_length t st step ->
  window_awaits heads kv_channels window_length t st (S step).
Proof.
  intros Hholds h s Hh Hs Hne. rewrite (Hholds h s Hh Hs).
  rewrite next_step_lag by assumption.
  unfold lagged. cbn [Nat.leb Nat.sub]. reflexivity.
Qed.

End WindowFacts.

(** ** Decoding step by step against the blocked computation *)

Section ConsistencyFacts.

Variable fexp : R -> R.
Hypothesis fexp_underflow : forall z, z <= -5e8 -> fexp z = 0.
Hypothesis fexp_one : fexp 0 = 1.
Hypothesis fexp_nonneg : forall z, 0 <= fexp z.

Variables heads io_channels kv_channels : nat.
Variable p : params.
Variable x : list (list R).
Variable window : nat.
Hypothesis window_pos : (0 < window)%nat.

Lemma einsum_row_link (w : list (list (list R))) (h l : nat) :
  (h < heads)%nat -> (l < length x)%nat ->
  row (einsum_x_w heads io_channels kv_channels (row x l) w) h =
  row (row (einsum_xs_w heads io_channels kv_channels (length x) x w) h) l.
Proof.
  intros Hh Hl. unfold einsum_x_w, einsum_xs_w.
  rewrite !row_tab by lia. reflexivity.
Qed.

(** One decode step at position [t], from a state that awaits it: the new
    state holds the window of [t], and the output is the lagged attention at
    [t] projected by [wo]. *)
Lemma incremental_step_lagged (k v : list (list (list R))) (t : nat) :
  (t < length x)%nat ->
  let K := einsum_xs_w heads io_channels kv_channels (length x) x (wk p) in
  let V := einsum_xs_w heads io_channels kv_channels (length x) x (wv p) in
  let Q := einsum_xs_w heads io_channels kv_channels (length x) x (wq p) in
  window_awaits heads kv_channels window K k t ->
  window_awaits heads kv_channels window V v t ->
  let '(y, k', v') :=
    masked_local_attention_1d_incremental fexp heads io_channels kv_channels
      window (row x t) k v (Z.of_nat t) p in
  window_holds heads kv_channels window K k' t /\
  window_holds heads kv_channels window V v' t /\
  y = einsum_o_wo heads io_channels kv_channels
        (tab heads (fun h =>
           lagged_attention fexp kv_channels window (row Q h) (row K h)
             (row V h) t))
        (wo p).
Proof.
  intros Ht K V Q HK HV. unfold masked_local_attention_1d_incremental.
  cbn zeta.
  pose proof (where_position_holds heads kv_channels window window_pos K k
                (einsum_x_w heads io_channels kv_channels (row x t) (wk p)) t
                HK (fun h Hh => einsum_row_link (wk p) h t Hh Ht)) as HK'.
  pose proof (where_position_holds heads kv_channels window window_pos V v
                (einsum_x_w heads io_channels kv_channels (row x t) (wv p)) t
                HV (fun h Hh => einsum_row_link (wv p) h t Hh Ht)) as HV'.
  split; [exact HK'|]. split; [exact HV'|].
  f_equal. unfold dot_product_attention_step. apply tab_ext.
  intros h Hh. unfold lagged_attention. cbn [fmap option_fmap option_map].
  rewrite (einsum_row_link (wq p) h t Hh Ht). fold Q.
  apply attention_row_rotate with (t := t); [exact window_pos|].
  intros s Hs.
  rewrite (HK' h s Hh Hs), (HV' h s Hh Hs).
  rewrite !row_tab by (apply Nat.mod_upper_bound; lia).
  split; reflexivity.
Qed.

Hypothesis logits_bounded : forall h l g,
  (h < heads)%nat -> (l < length x)%nat -> (g < length x)%nat ->
  -2.5e8 <=
  sumR kv_channels (fun c =>
    get3 (einsum_xs_w heads io_channels kv_channels (length x) x (wq p)) h l c
    * get3 (einsum_xs_w heads io_channels kv_channels (length x) x (wk p))
        h g c) <= 2.5e8.

(** One row of the blocked computation, when the blocks are as long as the
    window: it is the lagged attention at the position of the row. *)
Lemma blocked_row_lagged (n_blocks h b i : nat) :
  (n_blocks * window)%nat = length x ->
  (h < heads)%nat -> (b < n_blocks)%nat -> (i < window)%nat ->
  let K := einsum_xs_w heads io_channels kv_channels (length x) x (wk p) in
  let V := einsum_xs_w heads io_channels kv_channels (length x) x (wv p) in
  let Q := einsum_xs_w heads io_channels kv_channels (length x) x (wq p) in
  row (row (row
    (dot_product_attention_blocks fexp heads kv_channels n_blocks window
       (window + window)
       (reshape_to_blocks heads n_blocks window Q)
       (left_halo_exchange heads kv_channels n_blocks window window
          (reshape_to_blocks heads n_blocks window K))
       (left_halo_exchange heads kv_channels n_blocks window window
          (reshape_to_blocks heads n_blocks window V))
       (local_attention_mask window window)) h) b) i =
  lagged_attention fexp kv_channels window (row Q h) (row K h) (row V h)
    (b * window + i).
Proof.
  intros Hlen Hh Hb Hi K V Q.
  assert (b * window + i < length x)%nat as Ht.
  { assert (S b * window <= n_blocks * window)%nat
      by (apply Nat.mul_le_mono_r; lia).
    lia. }
  unfold dot_product_attention_blocks. rewrite !row_tab by lia.
  rewrite reshape_to_blocks_row by lia.
  unfold lagged_attention.
  assert (forall g, (g < length x)%nat ->
            -2.5e8 <=
            sumR kv_channels (fun c =>
              get1 (row (row Q h) (b * window + i)) c
              * get1 (row (row K h) g) c) <= 2.5e8) as Hbound
    by (intros g Hg; exact (logits_bounded h (b * window + i) g Hh Ht Hg)).
  assert (sumR kv_channels (fun c =>
            get1 (row (row Q h) (b * window + i)) c
            * get1 (zeros kv_channels) c) = 0) as Hzero
    by (apply sumR_zero; intros c Hc; rewrite get1_zeros; apply Rmult_0_r).
  apply attention_row_window with (i := i);
    [exact fexp_underflow|exact fexp_one|exact fexp_nonneg|exact Hi| |].
  - (* the hidden slots lie below the window *)
    intros j r Hj Hout Hr. unfold slot_logit, get2.
    rewrite halo_of_blocks_row by lia. rewrite row_tab by lia.
    assert (get1 (row (local_attention_mask window window) j) i = -1e9)
      as Hmask.
    { pose proof (local_attention_mask_entry window window i j Hi
                    ltac:(lia)) as Hentry.
      unfold get2 in Hentry. rewrite Hentry.
      destruct (Nat.leb_spec j (i + window));
        destruct (Nat.ltb_spec (i + window) (j + window));
        cbn [andb]; try reflexivity; lia. }
    rewrite Hmask.
    assert (-2.5e8 <=
            sumR kv_channels (fun c =>
              get1 (row (row Q h) (b * window + i)) c
              * get1 (lagged kv_channels (row K h) (b * window + i) r) c))
      as Hvisible.
    { unfold lagged. destruct (Nat.leb_spec r (b * window + i)).
      - apply Hbound. lia.
      - rewrite Hzero. lra. }
    assert (sumR kv_channels (fun c =>
              get1 (row (row Q h) (b * window + i)) c
              * get1 (if (b * window + j <? window)%nat
                      then zeros kv_channels
                      else row (row K h) (b * window + j - window)) c)
            <= 2.5e8) as Hhidden.
    { destruct (Nat.ltb_spec (b * window + j) window).
      - rewrite Hzero. lra.
      - apply Hbound.
        assert (S b * window <= n_blocks * window)%nat
          by (apply Nat.mul_le_mono_r; lia).
        lia. }
    lra.
  - (* the window, slot by slot *)
    intros r Hr. rewrite local_attention_mask_entry by lia.
    destruct (Nat.leb_spec (i + window - r) (i + window)); [|lia].
    destruct (Nat.ltb_spec (i + window) (i + window - r + window)); [|lia].
    cbn [andb]. split; [reflexivity|].
    rewrite !halo_of_blocks_row by lia. rewrite !row_tab by lia.
    unfold lagged.
    destruct (Nat.ltb_spec (b * window + (i + window - r)) window);
      destruct (Nat.leb_spec r (b * window + i)); try lia.
    + split; reflexivity.
    + replace (b * window + (i + window - r) - window)%nat
        with (b * window + i - r)%nat by lia.
      split; reflexivity.
Qed.

Lemma drop_cons_inv {A : Type} (l : list A) (n : nat) (a : A)
    (rest : list A) :
  drop n l = a :: rest ->
  l !! n = Some a /\ (n < length l)%nat /\ drop (S n) l = rest.
Proof.
  intros Hdrop.
  assert (l !! n = Some a) as Hlookup.
  { rewrite <- (Nat.add_0_r n), <- lookup_drop, Hdrop. reflexivity. }
  split; [exact Hlookup|]. split.
  - apply lookup_lt_Some in Hlookup. exact Hlookup.
  - rewrite (drop_S l a n Hlookup) in Hdrop. congruence.
Qed.

(** Decoding the tokens from position [t0] on, from a state that awaits
    [t0]: output [i] is the lagged attention at position [t0 + i]. *)
Lemma decode_lagged (suffix : list (list R)) :
  let K := einsum_xs_w heads io_channels kv_channels (length x) x (wk p) in
  let V := einsum_xs_w heads io_channels kv_channels (length x) x (wv p) in
  let Q := einsum_xs_w heads io_channels kv_channels (length x) x (wq p) in
  forall (t0 : nat) (k v : list (list (list R))),
    drop t0 x = suffix ->
    window_awaits heads kv_channels window K k t0 ->
    window_awaits heads kv_channels window V v t0 ->
    forall i, (i < length suffix)%nat ->
      decode fexp heads io_channels kv_channels window p suffix t0 k v !! i =
      Some (einsum_o_wo heads io_channels kv_channels
              (tab heads (fun h =>
                 lagged_attention fexp kv_channels window (row Q h) (row K h)
                   (row V h) (t0 + i)))
              (wo p)).
Proof.
  intros K V Q. induction suffix as [|a rest IH]; intros t0 k v Hdrop HK HV i Hi.
  - cbn [length] in Hi. lia.
  - apply drop_cons_inv in Hdrop. destruct Hdrop as (Hlookup & Ht0 & Hrest).
    cbn [decode].
    pose proof (incremental_step_lagged k v t0 Ht0 HK HV) as Hstep.
    assert (row x t0 = a) as Hrow
      by (unfold row; rewrite Hlookup; reflexivity).
    rewrite Hrow in Hstep.
    destruct (masked_local_attention_1d_incremental fexp heads io_channels
                kv_channels window a k v (Z.of_nat t0) p) as [[y k'] v'].
    destruct Hstep as (HK' & HV' & Hy).
    destruct i as [|i].
    + rewrite Nat.add_0_r. cbn [lookup list_lookup]. rewrite Hy. reflexivity.
    + cbn [lookup list_lookup].
      replace (t0 + S i)%nat with (S t0 + i)%nat by lia.
      apply IH.
      * exact Hrest.
      * apply window_holds_awaits_next; assumption.
      * apply window_holds_awaits_next; assumption.
      * cbn [length] in Hi. lia.
Qed.

End ConsistencyFacts.

(** Where the batch variant keeps to its documented range: when the window
    of the decode state, the window_size of the batch variant and the block
    length the batch variant chooses are all the same number (which then
    divides the length), the logits lie within 2.5e8 of zero and the
    exponential underflows below -5e8, decoding the sequence step by step
    from the zero state gives at every position the output of the batch
    [masked_local_attention_1d]. *)
Theorem incremental_matches_batch (fexp : R -> R)
    (heads io_channels kv_channels : nat) (p : params) (x : list (list R))
    (window : nat) (length_per_split : option Z) :
  (forall z, z <= -5e8 -> fexp z = 0) ->
  fexp 0 = 1 ->
  (forall z, 0 <= fexp z) ->
  (0 < window)%nat ->
  choose_block_length (Z.of_nat window) (Z.of_nat (length x))
    length_per_split = Ret (Z.of_nat window) ->
  (length x mod window = 0)%nat ->
  (forall h l g,
     (h < heads)%nat -> (l < length x)%nat -> (g < length x)%nat ->
     -2.5e8 <=
     sumR kv_channels (fun c =>
       get3 (einsum_xs_w heads io_channels kv_channels (length x) x (wq p))
         h l c
       * get3 (einsum_xs_w heads io_channels kv_channels (length x) x (wk p))
           h g c) <= 2.5e8) ->
  exists ys,
    masked_local_attention_1d fexp heads io_channels kv_channels (length x) x
      window length_per_split p = Ret ys /\
    forall t, (t < length x)%nat ->
      decode fexp heads io_channels kv_channels window p x 0
        (zero_state heads kv_channels window)
        (zero_state heads kv_channels window) !! t
      = Some (row ys t).
Proof.
  intros Hunder Hone Hnonneg Hwindow Hchoose Hdiv Hbound.
  unfold masked_local_attention_1d. rewrite Hchoose. cbn [bind].
  unfold num_blocks. rewrite <- Nat2Z.inj_div, !Nat2Z.id.
  pose proof (Nat.div_mod_eq (length x) window) as Hdm.
  assert (length x / window * window = length x)%nat as Hblocks by lia.
  rewrite Hblocks, Nat.eqb_refl. cbn [negb].
  eexists. split; [reflexivity|]. intros t Ht.
  rewrite (decode_lagged fexp heads io_channels kv_channels p x window
             Hwindow x 0 _ _ (drop_0 x)
             (zero_state_awaits heads kv_channels window Hwindow _)
             (zero_state_awaits heads kv_channels window Hwindow _) t Ht).
  cbn [Nat.add]. f_equal.
  unfold einsum_os_wo, einsum_o_wo. rewrite row_tab by lia.
  apply tab_ext. intros c Hc. apply sumR_ext. intros h Hh.
  apply sumR_ext. intros d Hd. f_equal.
  unfold get3, get2. f_equal. rewrite row_tab by lia.
  unfold reshape_from_blocks. rewrite !row_tab by lia.
  pose proof (Nat.div_mod_eq t window) as Htdm.
  pose proof (Nat.mod_upper_bound t window ltac:(lia)) as Hmod.
  assert (t / window < length x / window)%nat as Hb
    by (apply Nat.Div0.div_lt_upper_bound; lia).
  rewrite (blocked_row_lagged fexp Hunder Hone Hnonneg heads io_channels
             kv_channels p x window Hwindow Hbound (length x / window) h
             (t / window) (t mod window) Hblocks Hh Hb Hmod).
  replace (t / window * window + t mod window)%nat with t by lia.
  reflexivity.
Qed.

(** ** Decode and batch on concrete inputs *)

Lemma exp_underflow_spec (z : R) : z <= -5e8 -> exp_underflow z = 0.
Proof.
  intros Hz. unfold exp_underflow.
  destruct (Rle_dec z (-5e8)); [reflexivity|lra].
Qed.

Lemma exp_underflow_exp (z : R) : -5e8 < z -> exp_underflow z = exp z.
Proof.
  intros Hz. unfold exp_underflow.
  destruct (Rle_dec z (-5e8)); [lra|reflexivity].
Qed.

Lemma exp_underflow_one : exp_underflow 0 = 1.
Proof. rewrite exp_underflow_exp by lra. apply exp_0. Qed.

Lemma exp_underflow_nonneg (z : R) : 0 <= exp_underflow z.
Proof.
  unfold exp_underflow. destruct (Rle_dec z (-5e8)); [lra|].
  left. apply exp_pos.
Qed.

(** With the exponential [exp_underflow], hidden slots whose logits lie
    5e8 below the visible ones, and visible logits that differ by less than
    5e8 minus the number of slots, the kernel is the textbook softmax over
    the visible slots: the hidden slots weigh nothing and the weights of the
    visible slots are their exponentials divided by the sum of these. *)
Lemma attention_row_exp_underflow (depth n : nat) (q : list R)
    (k v : list (list R)) (mask : option (nat -> R)) (hidden : nat -> bool) :
  let a := slot_logit depth q k mask in
  (exists j, (j < n)%nat /\ hidden j = false) ->
  (forall j j', (j < n)%nat -> (j' < n)%nat ->
     hidden j = true -> hidden j' = false -> a j + 5e8 <= a j') ->
  (forall j j', (j < n)%nat -> (j' < n)%nat ->
     hidden j = false -> hidden j' = false -> a j' - a j + INR n < 5e8) ->
  dot_product_attention_row exp_underflow depth depth n q k v mask =
  tab depth (fun d =>
    sumR n (fun j => if hidden j then 0 else exp (a j) * get2 v j d)
    / sumR n (fun j => if hidden j then 0 else exp (a j))).
Proof.
  intros a (j0 & Hj0 & Hvis0) Hhid Hvis.
  assert (0 < n)%nat as Hn by lia.
  assert (0 <= INR n) as HINR by apply pos_INR.
  destruct (maxR_attained n a Hn) as (jm & Hjm & Hmax).
  assert (hidden jm = false) as Hvism.
  { destruct (hidden jm) eqn:Hh; [|reflexivity].
    pose proof (Hhid jm j0 Hjm Hj0 Hh Hvis0).
    pose proof (maxR_ub n a j0 Hj0). lra. }
  set (M := maxR n a) in *.
  assert (forall j, (j < n)%nat ->
            exp_underflow (a j - M)
            = if hidden j then 0 else exp (- M) * exp (a j)) as Hterm.
  { intros j Hj. destruct (hidden j) eqn:Hh.
    - apply exp_underflow_spec.
      pose proof (Hhid j jm Hj Hjm Hh Hvism). lra.
    - rewrite exp_underflow_exp
        by (pose proof (Hvis j jm Hj Hjm Hh Hvism); lra).
      rewrite <- exp_plus. f_equal. lra. }
  set (V := sumR n (fun j => if hidden j then 0 else exp (a j))).
  assert (sumR n (fun j => exp_underflow (a j - M)) = exp (- M) * V) as HS.
  { unfold V. rewrite <- sumR_mult_l. apply sumR_ext. intros j Hj.
    rewrite (Hterm j Hj). destruct (hidden j); lra. }
  pose proof (shifted_sum_ge_1 exp_underflow n a exp_underflow_one
                exp_underflow_nonneg Hn) as Hge1.
  fold M in Hge1. rewrite HS in Hge1.
  assert (exp (- M) * V <= INR n) as Hlen.
  { rewrite <- HS. rewrite <- (Rmult_1_r (INR n)), <- sumR_const.
    apply sumR_le. intros j Hj. cbn beta.
    unfold exp_underflow. destruct (Rle_dec (a j - M) (-5e8)); [lra|].
    rewrite <- exp_0. pose proof (maxR_ub n a j Hj) as Hub. fold M in Hub.
    destruct (Req_dec_T (a j - M) 0) as [->|Hne]; [lra|].
    left. apply exp_increasing. lra. }
  pose proof (exp_pos (- M)) as HexpM.
  assert (0 < V) as HV by nra.
  assert (0 < INR n) as HINR' by (apply lt_0_INR; exact Hn).
  assert (0 <= ln (exp (- M) * V) < INR n) as Hln.
  { split.
    - rewrite <- ln_1. apply ln_le_mono; lra.
    - apply Rle_lt_trans with (ln (INR n)); [apply ln_le_mono; lra|].
      rewrite <- (ln_exp (INR n)) at 2. apply ln_increasing; [lra|].
      pose proof (exp_ineq1 (INR n) ltac:(lra)). lra. }
  apply list_eq_get1 with depth;
    [apply length_attention_row|apply length_tab|].
  intros d Hd. rewrite attention_row_entry, get1_tab by lia.
  fold a. unfold slots_logsumexp. fold M. rewrite HS.
  rewrite (sumR_ext n _
             (fun j =>
                / (exp (- M) * V)
                * (exp (- M)
                   * (if hidden j then 0 else exp (a j) * get2 v j d)))).
  - rewrite sumR_mult_l, sumR_mult_l. field. split; lra.
  - intros j Hj. destruct (hidden j) eqn:Hh.
    + rewrite exp_underflow_spec
        by (pose proof (Hhid j jm Hj Hjm Hh Hvism); lra).
      lra.
    + rewrite exp_underflow_exp
        by (pose proof (Hvis j jm Hj Hjm Hh Hvism); lra).
      replace (a j - (ln (exp (- M) * V) + M))
        with (- ln (exp (- M) * V) + (- M + a j)) by lra.
      rewrite !exp_plus, exp_Ropp, exp_ln by lra. lra.
Qed.

(** Evaluates the integer comparisons of the masks and of the slot
    selection on concrete indices. *)
Ltac eval_conditions :=
  repeat match goal with
  | |- context [cast ?b] =>
      progress (let v := eval vm_compute in b in change (cast b) with (cast v))
  | |- context [if ?b then _ else _] =>
      progress (let v := eval vm_compute in b in change b with v)
  end;
  cbv beta iota; unfold cast.

(** Settles the bounds between the logits of concrete slots. *)
Ltac slots_bound :=
  let j := fresh "j" in
  let j' := fresh "j'" in
  intros j j' ? ? ? ?;
  repeat (destruct j as [|j]; try lia);
  repeat (destruct j' as [|j']; try lia);
  try discriminate;
  cbn -[IZR Rplus Rmult Rminus Rle Rlt Z.pow_pos]; lra.

(** C1, on a failing input: a sequence of 2 tokens (1 and 2, all weights 1)
    with window_size 1 and a decode window of 1 slot, so that
    window_length >= radius.  The batch [masked_local_attention_1d] takes
    block_length 2 and masks by block_length: position 0 also attends to
    the zero-filled halo slot before the sequence and position 1 also
    attends to position 0, outside the documented range
    (p - window_size, p].  The decode steps attend to the current token
    alone, and the outputs differ at both positions. *)
Lemma incremental_differs_from_batch :
  let p := mkParams [[[1]]] [[[1]]] [[[1]]] [[[1]]] in
  let x := [[1]; [2]] in
  masked_local_attention_1d exp_underflow 1 1 1 2 x 1 None p =
    Ret [[exp 1 / (1 + exp 1)]; [(exp 2 + 2 * exp 4) / (exp 2 + exp 4)]] /\
  decode exp_underflow 1 1 1 1 p x 0 (zero_state 1 1 1) (zero_state 1 1 1)
    = [[1]; [2]] /\
  exp 1 / (1 + exp 1) <> 1 /\
  (exp 2 + 2 * exp 4) / (exp 2 + exp 4) <> 2.
Proof.
  intros p x.
  pose proof (exp_pos 1) as He1. pose proof (exp_pos 2) as He2.
  pose proof (exp_pos 4) as He4.
  split; [|split; [|split]].
  - unfold masked_local_attention_1d.
    replace (choose_block_length (Z.of_nat 1) (Z.of_nat 2) None)
      with (Ret 2%Z) by (vm_compute; reflexivity).
    cbn [bind].
    change (num_blocks (Z.of_nat 2) 2) with 1%Z.
    change (Z.to_nat 1) with 1%nat. change (Z.to_nat 2) with 2%nat.
    cbn [Nat.mul Nat.add Nat.eqb negb].
    cbn -[dot_product_attention_row IZR Rplus Rmult Rdiv Rinv Z.pow_pos].
    eval_conditions.
    cbn -[dot_product_attention_row IZR Rplus Rmult Rdiv Rinv Z.pow_pos].
    rewrite (attention_row_exp_underflow 1 3 [1 * 1 + 0] _ _ _
               (fun j => (j =? 2)%nat));
      [|exists 0%nat; split; [lia|reflexivity]|slots_bound|slots_bound].
    rewrite (attention_row_exp_underflow 1 3 [2 * 1 + 0] _ _ _
               (fun j => (j =? 0)%nat));
      [|exists 1%nat; split; [lia|reflexivity]|slots_bound|slots_bound].
    cbn -[IZR Rplus Rmult Rdiv Rinv Z.pow_pos exp].
    replace ((1 * 1 + 0) * 0 + 0 + (0 * -1e9 + 0 * -1e9)) with 0 by lra.
    replace ((1 * 1 + 0) * (1 * 1 + 0) + 0 + (0 * -1e9 + 0 * -1e9))
      with 1 by lra.
    replace ((2 * 1 + 0) * (1 * 1 + 0) + 0 + (0 * -1e9 + 0 * -1e9))
      with 2 by lra.
    replace ((2 * 1 + 0) * (2 * 1 + 0) + 0 + (0 * -1e9 + 0 * -1e9))
      with 4 by lra.
    rewrite exp_0. do 3 f_equal; [|do 2 f_equal]; field; lra.
  - cbn -[dot_product_attention_row IZR Rplus Rmult Rdiv Rinv Z.pow_pos].
    eval_conditions.
    cbn -[dot_product_attention_row IZR Rplus Rmult Rdiv Rinv Z.pow_pos].
    rewrite (attention_row_exp_underflow 1 1 [1 * 1 + 0] _ _ _
               (fun _ => false));
      [|exists 0%nat; split; [lia|reflexivity]|slots_bound|slots_bound].
    rewrite (attention_row_exp_underflow 1 1 [2 * 1 + 0] _ _ _
               (fun _ => false));
      [|exists 0%nat; split; [lia|reflexivity]|slots_bound|slots_bound].
    cbn -[IZR Rplus Rmult Rdiv Rinv Z.pow_pos exp].
    replace ((1 * 1 + 0) * (1 * 1 + 0) + 0) with 1 by lra.
    replace ((2 * 1 + 0) * (2 * 1 + 0) + 0) with 4 by lra.
    do 2 f_equal; [|do 2 f_equal]; field; lra.
  - intros Heq.
    apply (f_equal (fun z => z * (1 + exp 1))) in Heq.
    replace (exp 1 / (1 + exp 1) * (1 + exp 1)) with (exp 1) in Heq
      by (field; lra).
    lra.
  - intros Heq.
    apply (f_equal (fun z => z * (exp 2 + exp 4))) in Heq.
    replace ((exp 2 + 2 * exp 4) / (exp 2 + exp 4) * (exp 2 + exp 4))
      with (exp 2 + 2 * exp 4) in Heq by (field; lra).
    lra.
Qed.

Lemma incremental_matches_batch_witness :
  let p := mkParams [[[1]]] [[[1]]] [[[1]]] [[[1]]] in
  let x := [[1]; [2]; [0]; [1]] in
  exists ys,
    masked_local_attention_1d exp_underflow 1 1 1 (length x) x 2 (Some 2%Z) p
      = Ret ys /\
    forall t, (t < length x)%nat ->
      decode exp_underflow 1 1 1 2 p x 0 (zero_state 1 1 2) (zero_state 1 1 2)
        !! t
      = Some (row ys t).
Proof.
  intros p x.
  apply (incremental_matches_batch exp_underflow 1 1 1 p x 2 (Some 2%Z)).
  - exact exp_underflow_spec.
  - exact exp_underflow_one.
  - exact exp_underflow_nonneg.
  - lia.
  - vm_compute. reflexivity.
  - reflexivity.
  - intros h l g Hh Hl Hg. cbn [length x] in Hl, Hg.
    destruct h as [|h]; [|lia].
    destruct l as [|[|[|[|l]]]]; [| | | |cbn in Hl; lia];
      (destruct g as [|[|[|[|g]]]]; [| | | |cbn in Hg; lia]);
      cbn -[IZR Rplus Rmult Rle Z.pow_pos]; split; lra.
Defined.

(** * Further properties *)

(** ** Head dimensions of [attention_params] *)

Section HeadParamsFacts.
Local Open Scope Z_scope.

(** [attention_params] raises exactly when there are several heads, more
    than one memory head is asked for, and num_memory_heads does not divide
    num_heads.  When it returns, the query head dimensions stand for
    num_heads heads in all, and the memory head dimensions, when there are
    any, are the leading query head dimensions. *)
Theorem attention_params_heads (num_heads num_memory_heads : Z) :
  ((exists msg,
      attention_params num_heads num_memory_heads = Raise (ValueError msg))
   <-> (num_heads <> 1 /\ num_memory_heads <> 0 /\ num_memory_heads <> 1 /\
        num_heads mod num_memory_heads <> 0)) /\
  (forall query_heads_dims memory_heads_dims,
     attention_params num_heads num_memory_heads =
       Ret (query_heads_dims, memory_heads_dims) ->
     heads_count query_heads_dims = num_heads /\
     (memory_heads_dims = None \/
      exists m rest,
        memory_heads_dims = Some m /\ query_heads_dims = Some (m ++ rest))).
Proof.
  unfold attention_params.
  destruct (Z.eqb_spec num_heads 1) as [H1|H1].
  { split.
    - split; [intros [msg Hmsg]; discriminate|]. intros (Hne & _). lia.
    - intros q m [= <- <-]. cbn. split; [lia|]. left. reflexivity. }
  destruct (Z.eqb_spec num_memory_heads 0) as [H0|H0].
  { split.
    - split; [intros [msg Hmsg]; discriminate|]. intros (_ & Hne & _). lia.
    - intros q m [= <- <-]. cbn. split; [lia|]. right.
      exists [("heads", num_heads)], []. split; reflexivity. }
  destruct (Z.eqb_spec num_memory_heads 1) as [Hm1|Hm1].
  { split.
    - split; [intros [msg Hmsg]; discriminate|]. intros (_ & _ & Hne & _).
      lia.
    - intros q m [= <- <-]. cbn. split; [lia|]. left. reflexivity. }
  destruct (Z.eqb_spec (num_heads mod num_memory_heads) 0) as [Hdiv|Hdiv];
    cbn [negb].
  - split.
    + split; [intros [msg Hmsg]; discriminate|]. intros (_ & _ & _ & Hne).
      lia.
    + intros q m [= <- <-]. cbn. split.
      * apply Z.mod_divide in Hdiv; [|lia]. destruct Hdiv as [c ->].
        rewrite Z.div_mul by lia. lia.
      * right. eexists _, _. split; reflexivity.
  - split.
    + split; [|intros _; eexists; reflexivity].
      intros _. repeat split; assumption.
    + intros q m Hret. discriminate.
Qed.

End HeadParamsFacts.

(** ** Memory compression *)

Section CompressionFacts.

Lemma compress_mean_reshapes (length channels compression_factor : nat)
    (x : list (list R)) :
  (0 < compression_factor)%nat ->
  (length mod compression_factor = 0 \/ channels = 0)%nat ->
  compress_mean length channels compression_factor x =
    Ret (tab (length / compression_factor) (fun g =>
           tab channels (fun c =>
             sumR compression_factor (fun u =>
               get2 x (g * compression_factor + u) c)
             / INR compression_factor))).
Proof.
  intros Hpos Hdiv. unfold compress_mean.
  destruct (Nat.eqb_spec compression_factor 0) as [|_]; [lia|].
  pose proof (Nat.div_mod_eq length compression_factor) as Hdm.
  destruct (Nat.eqb_spec
              (length / compression_factor * compression_factor * channels)
              (length * channels)) as [_|Hne]; [reflexivity|].
  exfalso. apply Hne. destruct Hdiv as [Hdiv| ->].
  - f_equal. lia.
  - rewrite !Nat.mul_0_r. reflexivity.
Qed.

Lemma compress_mean_returns (length channels compression_factor : nat)
    (x : list (list R)) :
  (0 < compression_factor)%nat ->
  (length mod compression_factor = 0)%nat ->
  compress_mean length channels compression_factor x =
    Ret (tab (length / compression_factor) (fun g =>
           tab channels (fun c =>
             sumR compression_factor (fun u =>
               get2 x (g * compression_factor + u) c)
             / INR compression_factor))).
Proof.
  intros Hpos Hdiv. apply compress_mean_reshapes; [exact Hpos|].
  left. exact Hdiv.
Qed.

(** [compress_mean] keeps the mean: when the factor divides the length, the
    compressed tensor has length // factor rows and, channel by channel,
    factor times the sum of its rows is the sum of the rows of the input. *)
Theorem compress_mean_preserves_sum (length channels compression_factor : nat)
    (x : list (list R)) :
  (0 < compression_factor)%nat ->
  (length mod compression_factor = 0)%nat ->
  exists y,
    compress_mean length channels compression_factor x = Ret y /\
    List.length y = (length / compression_factor)%nat /\
    forall c, (c < channels)%nat ->
      INR compression_factor
      * sumR (length / compression_factor) (fun g => get2 y g c)
      = sumR length (fun l => get2 x l c).
Proof.
  intros Hpos Hdiv. rewrite compress_mean_returns by assumption.
  eexists. split; [reflexivity|]. split; [apply length_tab|].
  intros c Hc.
  assert (0 < INR compression_factor) as Hcf by (apply lt_0_INR; lia).
  rewrite <- sumR_mult_l.
  pose proof (Nat.div_mod_eq length compression_factor) as Hdm.
  transitivity
    (sumR (length / compression_factor * compression_factor)
       (fun l => get2 x l c)); [|f_equal; lia].
  rewrite sumR_groups. apply sumR_ext. intros g Hg.
  unfold get2 at 1. rewrite row_tab, get1_tab by lia.
  field. lra.
Qed.

Lemma compress_mean_preserves_sum_witness :
  exists y,
    compress_mean 4 1 2 [[1]; [2]; [3]; [4]] = Ret y /\
    List.length y = (4 / 2)%nat /\
    forall c, (c < 1)%nat ->
      INR 2 * sumR (4 / 2) (fun g => get2 y g c)
      = sumR 4 (fun l => get2 [[1]; [2]; [3]; [4]] l c).
Proof.
  apply (compress_mean_preserves_sum 4 1 2 [[1]; [2]; [3]; [4]]).
  - lia.
  - reflexivity.
Defined.





End CompressionFacts.

(** ** Losses *)

Section LossFacts.

Lemma sumR_exp_pos (n : nat) (f : nat -> R) :
  (0 < n)%nat -> 0 < sumR n (fun i => exp (f i)).
Proof.
  intros Hn.
  pose proof (sumR_term_le n (fun i => exp (f i)) 0
                (fun i _ => Rlt_le _ _ (exp_pos (f i))) Hn) as Hle.
  pose proof (exp_pos (f 0%nat)). cbn beta in Hle. lra.
Qed.

Lemma logit_le_logsumexp (n : nat) (f : nat -> R) (k : nat) :
  (k < n)%nat -> f k <= ln (sumR n (fun i => exp (f i))).
Proof.
  intros Hk. rewrite <- (ln_exp (f k)) at 1.
  apply ln_le_mono; [apply exp_pos|].
  apply (sumR_term_le n (fun i => exp (f i)) k); [|exact Hk].
  intros i _. left. apply exp_pos.
Qed.

(** Without z_loss, [softmax_cross_entropy_with_logits] does not change
    when the same constant is added to every logit (and it raises on the
    same inputs). *)
Theorem softmax_cross_entropy_shift_invariant (logits logits' targets : vector)
    (vocab_dim : Dimension) (c : R) :
  (0 < dim_size vocab_dim)%nat ->
  vdim logits' = vdim logits ->
  (forall i, (i < dim_size vocab_dim)%nat ->
     get1 (vvalues logits') i = get1 (vvalues logits) i + c) ->
  softmax_cross_entropy_with_logits logits' targets vocab_dim 0 =
  softmax_cross_entropy_with_logits logits targets vocab_dim 0.
Proof.
  intros Hn Hdim Hshift. unfold softmax_cross_entropy_with_logits, vshape.
  rewrite Hdim.
  destruct (bool_decide (_ = _)); [|reflexivity].
  destruct (bool_decide (_ ∈ _)); [|reflexivity].
  cbn [negb].
  destruct (Req_dec_T 0 0) as [_|Hne]; [|exfalso; apply Hne; reflexivity].
  f_equal. f_equal.
  assert (ln (sumR (dim_size vocab_dim)
                (fun i => exp (get1 (vvalues logits') i)))
          = ln (sumR (dim_size vocab_dim)
                  (fun i => exp (get1 (vvalues logits) i))) + c) as Hlogz.
  { rewrite (sumR_ext _ (fun i => exp (get1 (vvalues logits') i))
               (fun i => exp c * exp (get1 (vvalues logits) i))).
    - rewrite sumR_mult_l, ln_mult, ln_exp.
      + lra.
      + apply exp_pos.
      + apply sumR_exp_pos. exact Hn.
    - intros i Hi. rewrite Hshift by exact Hi. rewrite exp_plus. lra. }
  rewrite Hlogz. apply sumR_ext. intros i Hi.
  rewrite Hshift by exact Hi. lra.
Qed.

Lemma softmax_cross_entropy_shift_invariant_witness :
  let d := mkDim "vocab" 2 in
  softmax_cross_entropy_with_logits (mkVector d [4; 5]) (mkVector d [0; 1]) d 0
  = softmax_cross_entropy_with_logits (mkVector d [1; 2]) (mkVector d [0; 1])
      d 0.
Proof.
  intros d.
  apply (softmax_cross_entropy_shift_invariant (mkVector d [1; 2])
           (mkVector d [4; 5]) (mkVector d [0; 1]) d 3).
  - cbn. lia.
  - reflexivity.
  - intros i Hi. cbn in Hi.
    destruct i as [|[|i]]; [| |lia];
      cbn -[IZR Rplus]; lra.
Defined.

(** For targets of the shape of the logits, along vocab_dim, that are not
    negative, and a z_loss that is not negative,
    [softmax_cross_entropy_with_logits] returns a loss that is not negative;
    for a one-hot target and no z_loss it is the log-partition minus the
    logit of the target class. *)
Theorem softmax_cross_entropy_nonneg (logits targets : vector)
    (z_loss : R) (k : nat) :
  vdim targets = vdim logits ->
  (forall i, (i < dim_size (vdim logits))%nat ->
     0 <= get1 (vvalues targets) i) ->
  0 <= z_loss ->
  exists loss,
    softmax_cross_entropy_with_logits logits targets (vdim logits) z_loss =
      Ret loss /\
    0 <= loss /\
    (z_loss = 0 -> (k < dim_size (vdim logits))%nat ->
     get1 (vvalues targets) k = 1 ->
     (forall i, (i < dim_size (vdim logits))%nat -> i <> k ->
        get1 (vvalues targets) i = 0) ->
     loss =
       ln (sumR (dim_size (vdim logits))
             (fun i => exp (get1 (vvalues logits) i)))
       - get1 (vvalues logits) k).
Proof.
  intros Hdim Htargets Hz. unfold softmax_cross_entropy_with_logits, vshape.
  rewrite Hdim.
  rewrite bool_decide_eq_true_2 by reflexivity.
  rewrite bool_decide_eq_true_2 by (apply list_elem_of_singleton; reflexivity).
  cbn [negb]. eexists. split; [reflexivity|].
  set (n := dim_size (vdim logits)) in *.
  set (log_z := ln (sumR n (fun i => exp (get1 (vvalues logits) i)))).
  assert (0 <= - sumR n (fun i =>
                    (get1 (vvalues logits) i - log_z)
                    * get1 (vvalues targets) i)) as Hloss.
  { replace (- sumR n (fun i =>
                 (get1 (vvalues logits) i - log_z)
                 * get1 (vvalues targets) i))
      with (sumR n (fun i =>
              -1 * ((get1 (vvalues logits) i - log_z)
                    * get1 (vvalues targets) i)))
      by (rewrite sumR_mult_l; lra).
    apply sumR_nonneg. intros i Hi.
    pose proof (logit_le_logsumexp n (fun i => get1 (vvalues logits) i) i Hi)
      as Hle.
    change (get1 (vvalues logits) i <= log_z) in Hle.
    pose proof (Htargets i Hi) as Hti.
    assert (0 <= (log_z - get1 (vvalues logits) i)
                 * get1 (vvalues targets) i) as Hprod
      by (apply Rmult_le_pos; lra).
    lra. }
  split.
  - destruct (Req_dec_T z_loss 0); [exact Hloss|]. nra.
  - intros -> Hk Hone Hzero.
    destruct (Req_dec_T 0 0) as [_|Hne]; [|exfalso; apply Hne; reflexivity].
    rewrite (sumR_single n _ k Hk).
    + rewrite Hone. lra.
    + intros i Hi Hne. rewrite (Hzero i Hi Hne). lra.
Qed.

Lemma softmax_cross_entropy_nonneg_witness :
  let d := mkDim "vocab" 2 in
  let logits := mkVector d [1; 2] in
  let targets := mkVector d [0; 1] in
  exists loss,
    softmax_cross_entropy_with_logits logits targets (vdim logits) 0 =
      Ret loss /\
    0 <= loss /\
    (0 = 0 -> (1 < dim_size (vdim logits))%nat ->
     get1 (vvalues targets) 1 = 1 ->
     (forall i, (i < dim_size (vdim logits))%nat -> i <> 1%nat ->
        get1 (vvalues targets) i = 0) ->
     loss =
       ln (sumR (dim_size (vdim logits))
             (fun i => exp (get1 (vvalues logits) i)))
       - get1 (vvalues logits) 1).
Proof.
  intros d logits targets.
  apply (softmax_cross_entropy_nonneg logits targets 0 1).
  - reflexivity.
  - intros i Hi. cbn in Hi.
    destruct i as [|[|i]]; [| |lia]; cbn -[IZR]; lra.
  - lra.
Defined.

Lemma softplus_stable (x : R) :
  Rmax x 0 + ln (1 + exp (- Rabs x)) = ln (1 + exp x).
Proof.
  pose proof (exp_pos x) as Hx. pose proof (exp_pos (- x)) as Hnx.
  destruct (Rle_dec 0 x) as [Hpos|Hneg].
  - rewrite Rmax_left, Rabs_pos_eq by lra.
    rewrite <- (ln_exp x) at 1. rewrite <- ln_mult by lra.
    f_equal. rewrite Rmult_plus_distr_l, <- exp_plus.
    replace (x + - x) with 0 by lra. rewrite exp_0. lra.
  - rewrite Rmax_right, Rabs_left by lra.
    rewrite Ropp_involutive. lra.
Qed.

(** On tensors of one shape, every entry of
    [sigmoid_cross_entropy_with_logits] is the cross-entropy
    - z * ln(sigmoid x) - (1 - z) * ln(1 - sigmoid x) of the logit x and the
    target z, and it is not negative for a target between 0 and 1. *)
Theorem sigmoid_cross_entropy_is_cross_entropy (logits targets : vector) :
  vdim targets = vdim logits ->
  exists loss,
    sigmoid_cross_entropy_with_logits logits targets = Ret loss /\
    List.length loss = dim_size (vdim logits) /\
    forall i, (i < dim_size (vdim logits))%nat ->
      let x := get1 (vvalues logits) i in
      let z := get1 (vvalues targets) i in
      get1 loss i = - z * ln (sigmoid x) - (1 - z) * ln (1 - sigmoid x) /\
      (0 <= z <= 1 -> 0 <= get1 loss i).
Proof.
  intros Hdim. unfold sigmoid_cross_entropy_with_logits, vshape.
  rewrite Hdim. rewrite bool_decide_eq_true_2 by reflexivity. cbn [negb].
  eexists. split; [reflexivity|]. split; [apply length_tab|].
  intros i Hi. cbn zeta. rewrite get1_tab by exact Hi.
  set (x := get1 (vvalues logits) i). set (z := get1 (vvalues targets) i).
  pose proof (exp_pos x) as Hx. pose proof (exp_pos (- x)) as Hnx.
  pose proof (softplus_stable x) as Hstable.
  assert (ln (1 + exp x) = x + ln (1 + exp (- x))) as Hflip.
  { rewrite <- (ln_exp x) at 2. rewrite <- ln_mult by lra.
    f_equal. rewrite Rmult_plus_distr_l, <- exp_plus.
    replace (x + - x) with 0 by lra. rewrite exp_0. lra. }
  split.
  - unfold sigmoid. rewrite ln_Rinv by lra.
    replace (1 - / (1 + exp (- x))) with (exp (- x) * / (1 + exp (- x)))
      by (field; lra).
    rewrite ln_mult, ln_exp, ln_Rinv; try lra.
    + apply Rinv_0_lt_compat. lra.
  - intros [Hz0 Hz1].
    assert (Rmax x 0 <= ln (1 + exp x)) as Hmax.
    { apply Rmax_lub.
      - rewrite <- (ln_exp x) at 1. apply ln_le_mono; lra.
      - rewrite <- ln_1. apply ln_le_mono; lra. }
    assert (x * z <= Rmax x 0) as Hxz.
    { pose proof (Rmax_l x 0). pose proof (Rmax_r x 0).
      destruct (Rle_dec 0 x); nra. }
    lra.
Qed.

Lemma sigmoid_cross_entropy_is_cross_entropy_witness :
  let d := mkDim "classes" 2 in
  let logits := mkVector d [1; -2] in
  let targets := mkVector d [0; 1] in
  exists loss,
    sigmoid_cross_entropy_with_logits logits targets = Ret loss /\
    List.length loss = dim_size (vdim logits) /\
    forall i, (i < dim_size (vdim logits))%nat ->
      let x := get1 (vvalues logits) i in
      let z := get1 (vvalues targets) i in
      get1 loss i = - z * ln (sigmoid x) - (1 - z) * ln (1 - sigmoid x) /\
      (0 <= z <= 1 -> 0 <= get1 loss i).
Proof.
  intros d logits targets.
  apply (sigmoid_cross_entropy_is_cross_entropy logits targets).
  reflexivity.
Defined.

End LossFacts.

(** ** Layer normalisation *)

Section LayerNormFacts.

Lemma layer_norm_variance_nonneg (n : nat) (x : list R) (m : R) :
  0 <= sumR n (fun i => (get1 x i - m) * (get1 x i - m)) / INR n.
Proof.
  destruct n as [|n].
  - rewrite sumR_0. cbn [INR]. unfold Rdiv. rewrite Rmult_0_l. lra.
  - apply Rmult_le_pos.
    + apply sumR_nonneg. intros i _. apply Rle_0_sqr.
    + left. apply Rinv_0_lt_compat. apply lt_0_INR. lia.
Qed.

Lemma normalised_square_mean (v e N : R) :
  0 <= v -> 0 < e -> 0 < N -> / (v + e) * (v * N) / N = v / (v + e).
Proof. intros Hv He HN. field. split; lra. Qed.

(** [layer_norm] does not change when the same constant is added to every
    entry of the input, whatever the scale and the bias. *)
Theorem layer_norm_shift_invariant (n : nat) (x x' scale bias : list R)
    (epsilon c : R) :
  (forall i, (i < n)%nat -> get1 x' i = get1 x i + c) ->
  layer_norm n x' scale bias epsilon = layer_norm n x scale bias epsilon.
Proof.
  intros Hshift. unfold layer_norm.
  destruct n as [|n]; [reflexivity|].
  remember (S n) as N eqn:HeqN.
  assert (0 < INR N) as HN by (apply lt_0_INR; lia).
  assert (sumR N (fun i => get1 x' i) / INR N
          = sumR N (fun i => get1 x i) / INR N + c) as Hmean.
  { rewrite (sumR_ext N (fun i => get1 x' i) (fun i => get1 x i + c))
      by exact Hshift.
    rewrite sumR_plus, sumR_const.
    change (sumR N (fun i => get1 x i)) with (sumR N (get1 x)).
    field. lra. }
  rewrite Hmean.
  set (mean := sumR N (fun i => get1 x i) / INR N).
  assert (sumR N (fun i => (get1 x' i - (mean + c)) * (get1 x' i - (mean + c)))
          = sumR N (fun i => (get1 x i - mean) * (get1 x i - mean))) as Hvar.
  { apply sumR_ext. intros i Hi. rewrite Hshift by exact Hi. lra. }
  rewrite Hvar. apply tab_ext. intros i Hi.
  rewrite Hshift by exact Hi.
  replace (get1 x i + c - (mean + c)) with (get1 x i - mean) by lra.
  reflexivity.
Qed.

Lemma layer_norm_shift_invariant_witness :
  layer_norm 2 [11; 13] [2; 3] [4; 5] 1 = layer_norm 2 [1; 3] [2; 3] [4; 5] 1.
Proof.
  apply (layer_norm_shift_invariant 2 [1; 3] [11; 13] [2; 3] [4; 5] 1 10).
  intros i Hi. destruct i as [|[|i]]; [| |lia]; cbn -[IZR Rplus]; lra.
Defined.

(** With the scale and the bias as they are created (ones and zeros) and a
    positive epsilon, the output of [layer_norm] along a dimension that is
    not empty has mean zero, and the mean of its squares is
    variance / (variance + epsilon), which is less than one. *)
Theorem layer_norm_initial_moments (n : nat) (x scale bias : list R)
    (epsilon : R) :
  (0 < n)%nat -> 0 < epsilon ->
  (forall i, (i < n)%nat -> get1 scale i = 1 /\ get1 bias i = 0) ->
  let y := layer_norm n x scale bias epsilon in
  let mean := sumR n (fun i => get1 x i) / INR n in
  let variance :=
    sumR n (fun i => (get1 x i - mean) * (get1 x i - mean)) / INR n in
  List.length y = n /\
  sumR n (fun i => get1 y i) = 0 /\
  sumR n (fun i => get1 y i * get1 y i) / INR n
    = variance / (variance + epsilon) /\
  sumR n (fun i => get1 y i * get1 y i) / INR n < 1.
Proof.
  intros Hn Heps Hinit y mean variance.
  assert (0 < INR n) as HN by (apply lt_0_INR; lia).
  assert (0 <= variance) as Hvar by apply layer_norm_variance_nonneg.
  set (r := / sqrt (variance + epsilon)).
  assert (0 < sqrt (variance + epsilon)) as Hsqrt by (apply sqrt_lt_R0; lra).
  assert (r * r = / (variance + epsilon)) as Hrr.
  { unfold r. rewrite <- Rinv_mult. f_equal. apply sqrt_sqrt. lra. }
  assert (forall i, (i < n)%nat -> get1 y i = r * (get1 x i - mean)) as Hy.
  { intros i Hi. unfold y, layer_norm. rewrite get1_tab by exact Hi.
    destruct (Hinit i Hi) as [-> ->]. fold mean. fold variance. fold r. lra. }
  assert (sumR n (fun i => get1 x i - mean) = 0) as Hcentred.
  { rewrite (sumR_ext n _ (fun i => get1 x i + -1 * mean))
      by (intros; lra).
    rewrite sumR_plus, sumR_const. unfold mean.
    change (sumR n (fun i => get1 x i)) with (sumR n (get1 x)).
    field. lra. }
  assert (sumR n (fun i => get1 y i * get1 y i) / INR n
          = variance / (variance + epsilon)) as Hsq.
  { rewrite (sumR_ext n _
               (fun i => (r * r) * ((get1 x i - mean) * (get1 x i - mean)))).
    - rewrite sumR_mult_l, Hrr.
      assert (sumR n (fun i => (get1 x i - mean) * (get1 x i - mean))
              = variance * INR n) as Hv.
      { unfold variance, Rdiv. rewrite Rmult_assoc, Rinv_l by lra. lra. }
      rewrite Hv. apply normalised_square_mean; lra.
    - intros i Hi. rewrite (Hy i Hi). lra. }
  split; [apply length_tab|]. split; [|split].
  - rewrite (sumR_ext n _ (fun i => r * (get1 x i - mean))) by exact Hy.
    rewrite sumR_mult_l, Hcentred. lra.
  - exact Hsq.
  - rewrite Hsq. apply (Rmult_lt_reg_r (variance + epsilon)); [lra|].
    unfold Rdiv. rewrite Rmult_assoc, Rinv_l by lra. lra.
Qed.

Lemma layer_norm_initial_moments_witness :
  let y := layer_norm 2 [1; 3] [1; 1] [0; 0] 1 in
  let mean := sumR 2 (fun i => get1 [1; 3] i) / INR 2 in
  let variance :=
    sumR 2 (fun i => (get1 [1; 3] i - mean) * (get1 [1; 3] i - mean))
    / INR 2 in
  List.length y = 2%nat /\
  sumR 2 (fun i => get1 y i) = 0 /\
  sumR 2 (fun i => get1 y i * get1 y i) / INR 2
    = variance / (variance + 1) /\
  sumR 2 (fun i => get1 y i * get1 y i) / INR 2 < 1.
Proof.
  apply (layer_norm_initial_moments 2 [1; 3] [1; 1] [0; 0] 1).
  - lia.
  - lra.
  - intros i Hi. destruct i as [|[|i]]; [| |lia]; cbn -[IZR]; split; lra.
Defined.

End LayerNormFacts.

(** ** Decode state of the Transformer self-attention layers *)

Section TransformerStateFacts.

Variables heads kv_channels : nat.

Lemma state_ext (n m : nat) (st1 st2 : list (list (list R))) :
  length st1 = n -> length st2 = n ->
  (forall h, (h < n)%nat ->
     length (row st1 h) = m /\ length (row st2 h) = m) ->
  (forall h s, (h < n)%nat -> (s < m)%nat ->
     row (row st1 h) s = row (row st2 h) s) ->
  st1 = st2.
Proof.
  intros H1 H2 Hrows Heq.
  apply list_eq_same_length with n; try assumption.
  intros h r1 r2 Hh Hr1 Hr2.
  destruct (Hrows h Hh) as [Hl1 Hl2].
  assert (row st1 h = r1) as E1 by (unfold row; rewrite Hr1; reflexivity).
  assert (row st2 h = r2) as E2 by (unfold row; rewrite Hr2; reflexivity).
  rewrite E1 in Hl1. rewrite E2 in Hl2.
  apply list_eq_same_length with m; try assumption.
  intros s a b Hs Ha Hb.
  specialize (Heq h s Hh Hs). rewrite E1, E2 in Heq.
  unfold row in Heq. rewrite Ha, Hb in Heq. exact Heq.
Qed.

Lemma tab_zero_zeros (n : nat) : tab n (fun _ => 0) = zeros n.
Proof.
  apply list_eq_get1 with n.
  - apply length_tab.
  - unfold zeros. apply length_replicate.
  - intros d Hd. rewrite get1_tab, get1_zeros by lia. reflexivity.
Qed.

Lemma tab_get1_row (n : nat) (l : list R) :
  length l = n -> tab n (fun d => get1 l d) = l.
Proof.
  intros Hl. apply list_eq_get1 with n.
  - apply length_tab.
  - exact Hl.
  - intros d Hd. rewrite get1_tab by lia. reflexivity.
Qed.

(** The position a window slot holds: the slot [w] of a window of [radius]
    slots holds, once position [n] is written, the position that lies
    [(n + radius - w) mod radius] before [n]. *)
Lemma slot_lag_of_position (radius n w pos : nat) :
  (0 < radius)%nat -> (pos <= n)%nat -> (n < pos + radius)%nat ->
  (pos mod radius = w)%nat ->
  ((n + radius - w) mod radius = n - pos)%nat.
Proof.
  intros Hr Hle Hlt Hmod.
  pose proof (Nat.div_mod_eq pos radius) as Hdm. rewrite Hmod in Hdm.
  symmetry. apply Nat.mod_unique with (q := S (pos / radius)); [lia|].
  assert (radius * S (pos / radius) = radius * (pos / radius) + radius)%nat
    by lia.
  lia.
Qed.

Lemma slot_position_of_lag (radius n w : nat) :
  (0 < radius)%nat -> (w < radius)%nat ->
  ((n + radius - w) mod radius <= n)%nat ->
  ((n - (n + radius - w) mod radius) mod radius = w)%nat.
Proof.
  intros Hr Hw Hle.
  pose proof (Nat.div_mod_eq (n + radius - w) radius) as Hdm.
  pose proof (Nat.mod_upper_bound (n + radius - w) radius ltac:(lia)) as Hlt.
  set (q := ((n + radius - w) / radius)%nat) in *.
  set (r := ((n + radius - w) mod radius)%nat) in *.
  destruct q as [|q].
  - rewrite Nat.mul_0_r in Hdm. lia.
  - symmetry. apply Nat.mod_unique with (q := q); [|lia].
    assert (radius * S q = radius * q + radius)%nat by lia.
    lia.
Qed.

Lemma select_recent_entry (radius length : nat) (initial_position : Z)
    (pos w : nat) :
  (pos < length)%nat -> (w < radius)%nat ->
  get2 (select_recent radius length initial_position) pos w =
    cast (Z.of_nat (pos mod radius) =? Z.of_nat w)%Z
    * cast (Z.of_nat pos <? initial_position)%Z
    * cast (Z.of_nat pos >=? initial_position - Z.of_nat radius)%Z.
Proof.
  intros Hpos Hw. unfold get2, get1, row, select_recent.
  rewrite list_lookup_fmap, lookup_range by lia.
  cbn [fmap option_fmap option_map default]. unfold Datatypes.id.
  rewrite list_lookup_fmap, lookup_range by lia.
  cbn [fmap option_fmap option_map default]. unfold Datatypes.id.
  rewrite Nat2Z.inj_mod. reflexivity.
Qed.

Lemma incremental_states_shape (radius : nat) (k : list (list (list R)))
    (n : nat) :
  length (incremental_states heads kv_channels radius k n) = heads /\
  forall h, (h < heads)%nat ->
    length (row (incremental_states heads kv_channels radius k n) h) = radius.
Proof.
  destruct n as [|n]; cbn [incremental_states];
    unfold zero_state, local_state, where_position;
    (split; [apply length_tab|]);
    intros h Hh; rewrite row_tab by lia; apply length_tab.
Qed.

Lemma incremental_states_hold (radius : nat) (k : list (list (list R)))
    (n : nat) :
  (0 < radius)%nat ->
  window_holds heads kv_channels radius k
    (incremental_states heads kv_channels radius k (S n)) n.
Proof.
  intros Hr. induction n as [|n IH].
  - cbn [incremental_states]. unfold local_state.
    apply where_position_holds; [exact Hr| |].
    + apply zero_state_awaits. exact Hr.
    + intros h Hh. rewrite row_tab by lia. reflexivity.
  - change (incremental_states heads kv_channels radius k (S (S n)))
      with (local_state heads radius (Z.of_nat (S n))
              (tab heads (fun h => row (row k h) (S n)))
              (incremental_states heads kv_channels radius k (S n))).
    unfold local_state.
    apply where_position_holds; [exact Hr| |].
    + apply window_holds_awaits_next; assumption.
    + intros h Hh. rewrite row_tab by lia. reflexivity.
Qed.

Lemma first_part_state_row (radius length n : nat)
    (k : list (list (list R))) (h w : nat) :
  (0 < radius)%nat -> (n < length)%nat ->
  (h < heads)%nat -> (w < radius)%nat ->
  (forall pos, (pos <= n)%nat ->
     List.length (row (row k h) pos) = kv_channels) ->
  row (row (first_part_state heads kv_channels radius length
              (Z.of_nat (S n)) k) h) w
  = lagged kv_channels (row k h) n ((n + radius - w) mod radius).
Proof.
  intros Hr Hn Hh Hw Hshape. unfold first_part_state.
  rewrite !row_tab by lia.
  set (r := ((n + radius - w) mod radius)%nat).
  assert (forall pos, (pos < length)%nat ->
            get2 (select_recent radius length (Z.of_nat (S n))) pos w <> 0 ->
            (pos <= n)%nat /\ r = (n - pos)%nat) as Hsel.
  { intros pos Hpos Hne. rewrite select_recent_entry in Hne by lia.
    destruct (Z.eqb_spec (Z.of_nat (pos mod radius)) (Z.of_nat w))
      as [Hm|Hm]; [|exfalso; apply Hne; unfold cast; lra].
    destruct (Z.ltb_spec (Z.of_nat pos) (Z.of_nat (S n)))
      as [Hlt|Hlt]; [|exfalso; apply Hne; unfold cast; lra].
    destruct (Z.geb_spec (Z.of_nat pos) (Z.of_nat (S n) - Z.of_nat radius))
      as [Hge|Hge]; [|exfalso; apply Hne; unfold cast; lra].
    apply Nat2Z.inj in Hm. split; [lia|].
    apply slot_lag_of_position; lia. }
  unfold lagged. destruct (Nat.leb_spec r n) as [Hle|Hgt].
  - rewrite <- (tab_get1_row kv_channels (row (row k h) (n - r)))
      by (apply Hshape; lia).
    apply tab_ext. intros d Hd.
    rewrite (sumR_single length _ (n - r)%nat) by
      (lia ||
       (intros pos Hpos Hne;
        destruct (Req_dec_T
                    (get2 (select_recent radius length (Z.of_nat (S n)))
                       pos w) 0) as [Hz|Hnz];
        [rewrite Hz; lra | destruct (Hsel pos Hpos Hnz); lia])).
    rewrite select_recent_entry by lia.
    pose proof (slot_position_of_lag radius n w Hr Hw Hle) as Hslot.
    fold r in Hslot. rewrite Hslot, Z.eqb_refl.
    pose proof (Nat.mod_upper_bound (n + radius - w) radius ltac:(lia))
      as Hbound. fold r in Hbound.
    destruct (Z.ltb_spec (Z.of_nat (n - r)) (Z.of_nat (S n))); [|lia].
    destruct (Z.geb_spec (Z.of_nat (n - r))
                (Z.of_nat (S n) - Z.of_nat radius)); [|lia].
    unfold cast, get3, get2. lra.
  - rewrite <- tab_zero_zeros. apply tab_ext. intros d Hd.
    apply sumR_all_zero. intros pos Hpos.
    destruct (Req_dec_T
                (get2 (select_recent radius length (Z.of_nat (S n))) pos w) 0)
      as [Hz|Hnz]; [rewrite Hz; lra|].
    destruct (Hsel pos Hpos Hnz). lia.
Qed.

End TransformerStateFacts.

(** The state that [LocalSelfAttention.call] records in first_part mode for
    an initial position within the sequence is the state that the
    incremental mode reaches from the zero state by decoding the positions
    before it one at a time: both hold, in slot [w], the keys of the most
    recent position congruent to [w] modulo the radius, and zeros when there
    is none. *)
Theorem first_part_state_is_incremental_state (heads kv_channels : nat)
    (radius length initial_position : nat) (k : list (list (list R))) :
  (0 < radius)%nat -> (initial_position <= length)%nat ->
  (forall h pos, (h < heads)%nat -> (pos < initial_position)%nat ->
     List.length (row (row k h) pos) = kv_channels) ->
  first_part_state heads kv_channels radius length
    (Z.of_nat initial_position) k
  = incremental_states heads kv_channels radius k initial_position.
Proof.
  intros Hr Hinit Hshape.
  pose proof (incremental_states_shape heads kv_channels radius k
                initial_position) as [Hlen Hrows].
  apply state_ext with heads radius.
  - unfold first_part_state. apply length_tab.
  - exact Hlen.
  - intros h Hh. split; [|apply Hrows; exact Hh].
    unfold first_part_state. rewrite row_tab by lia. apply length_tab.
  - intros h w Hh Hw. destruct initial_position as [|n].
    + cbn [incremental_states]. unfold first_part_state, zero_state.
      rewrite !row_tab by lia. rewrite <- tab_zero_zeros.
      apply tab_ext. intros d Hd. apply sumR_all_zero. intros pos Hpos.
      rewrite select_recent_entry by lia.
      destruct (Z.ltb_spec (Z.of_nat pos) (Z.of_nat 0)); [lia|].
      unfold cast. lra.
    + rewrite (first_part_state_row heads kv_channels radius length n k h w)
        by (lia || (intros pos Hpos; apply Hshape; lia)).
      symmetry. apply incremental_states_hold; assumption.
Qed.

Lemma first_part_state_is_incremental_state_witness :
  first_part_state 1 1 2 4 (Z.of_nat 3) [[[1]; [2]; [3]; [4]]]
  = incremental_states 1 1 2 [[[1]; [2]; [3]; [4]]] 3.
Proof.
  apply (first_part_state_is_incremental_state 1 1 2 4 3
           [[[1]; [2]; [3]; [4]]]).
  - lia.
  - lia.
  - intros h pos Hh Hpos.
    destruct h as [|h]; [|lia].
    destruct pos as [|[|[|pos]]]; [reflexivity..|lia].
Defined.

(** In incremental mode at position [p], [LocalSelfAttention.call] makes
    visible exactly the window slots that hold keys of the sequence: a
    visible slot [w] holds the keys of the position [lag] before [p], with
    [lag = (p + radius - w) mod radius] at most [p], and a hidden slot still
    holds the zeros of the initial state. *)
Theorem local_incremental_visible_slots (heads kv_channels : nat)
    (radius p : nat) (k : list (list (list R))) (h w : nat) :
  (0 < radius)%nat -> (h < heads)%nat -> (w < radius)%nat ->
  let st := incremental_states heads kv_channels radius k (S p) in
  let lag := ((p + radius - w) mod radius)%nat in
  exists visible : bool,
    local_visible radius (Z.of_nat p) !! w = Some visible /\
    if visible
    then (lag <= p)%nat /\ (lag < radius)%nat /\
         row (row st h) w = row (row k h) (p - lag)
    else (p < lag)%nat /\ row (row st h) w = zeros kv_channels.
Proof.
  intros Hr Hh Hw st lag.
  unfold local_visible. rewrite list_lookup_fmap, lookup_range by lia.
  eexists. split; [reflexivity|].
  pose proof (incremental_states_hold heads kv_channels radius k p Hr h w
                Hh Hw) as Hholds.
  fold st lag in Hholds. unfold lagged in Hholds.
  pose proof (Nat.mod_upper_bound (p + radius - w) radius ltac:(lia))
    as Hbound. fold lag in Hbound.
  destruct (Z.geb_spec (Z.of_nat p) (Z.of_nat w)) as [Hge|Hlt].
  - assert (lag <= p)%nat as Hle.
    { assert (lag = ((p - w) mod radius)%nat) as ->.
      { unfold lag.
        replace (p + radius - w)%nat with ((p - w) + 1 * radius)%nat by lia.
        apply Nat.Div0.mod_add. }
      pose proof (Nat.Div0.mod_le (p - w) radius). lia. }
    destruct (Nat.leb_spec lag p); [|lia].
    split; [exact Hle|]. split; [exact Hbound|]. exact Hholds.
  - assert (lag = (p + radius - w)%nat) as Hlag
      by (unfold lag; apply Nat.mod_small; lia).
    destruct (Nat.leb_spec lag p); [lia|].
    split; [lia|]. exact Hholds.
Qed.

Lemma local_incremental_visible_slots_witness :
  let k := [[[1]; [2]; [3]]] in
  let st := incremental_states 1 1 2 k (S 2) in
  let lag := ((2 + 2 - 1) mod 2)%nat in
  exists visible : bool,
    local_visible 2 (Z.of_nat 2) !! 1%nat = Some visible /\
    if visible
    then (lag <= 2)%nat /\ (lag < 2)%nat /\
         row (row st 0) 1 = row (row k 0) (2 - lag)
    else (2 < lag)%nat /\ row (row st 0) 1 = zeros 1.
Proof.
  intros k.
  apply (local_incremental_visible_slots 1 1 2 2 k 0 1); lia.
Defined.

Section SelfAttentionStateFacts.

Variables heads kv_channels : nat.

Lemma self_attention_state_entry (memory_length : nat) (position : Z)
    (k : list (list R)) (old_k : list (list (list R))) (h s d : nat) :
  (h < heads)%nat -> (s < memory_length)%nat -> (d < kv_channels)%nat ->
  get3 (self_attention_state heads kv_channels memory_length position k
          old_k) h s d
  = if (Z.of_nat s =? position)%Z then get2 k h d else get3 old_k h s d.
Proof.
  intros Hh Hs Hd. unfold self_attention_state, get3, get2.
  rewrite !row_tab by lia. rewrite !get1_tab by lia.
  rewrite get1_one_hot by lia.
  destruct (Z.of_nat s =? position)%Z; unfold cast; lra.
Qed.

End SelfAttentionStateFacts.

(** The incremental state of [SelfAttention.call] is overwritten, not
    accumulated: after a call at a position, the slot of that position holds
    the keys of the token and every other slot is unchanged, so that
    recording twice at one position keeps only the second token, and a
    position outside the memory changes no entry. *)
Theorem self_attention_state_overwrites (heads kv_channels : nat)
    (memory_length : nat) (position : Z) (k1 k2 : list (list R))
    (old_k : list (list (list R))) :
  self_attention_state heads kv_channels memory_length position k2
    (self_attention_state heads kv_channels memory_length position k1 old_k)
  = self_attention_state heads kv_channels memory_length position k2 old_k /\
  (forall h s d,
     (h < heads)%nat -> (s < memory_length)%nat -> (d < kv_channels)%nat ->
     get3 (self_attention_state heads kv_channels memory_length position k1
             old_k) h s d
     = if (Z.of_nat s =? position)%Z then get2 k1 h d
       else get3 old_k h s d) /\
  ((position < 0 \/ Z.of_nat memory_length <= position)%Z ->
   forall h s d,
     (h < heads)%nat -> (s < memory_length)%nat -> (d < kv_channels)%nat ->
     get3 (self_attention_state heads kv_channels memory_length position k1
             old_k) h s d
     = get3 old_k h s d).
Proof.
  split; [|split].
  - unfold self_attention_state at 1 3.
    apply tab_ext. intros h Hh. apply tab_ext. intros s Hs.
    apply tab_ext. intros d Hd.
    rewrite self_attention_state_entry by lia.
    rewrite get1_tab by lia. rewrite get1_one_hot by lia.
    destruct (Z.of_nat s =? position)%Z; unfold cast; lra.
  - intros h s d Hh Hs Hd. apply self_attention_state_entry; assumption.
  - intros Hout h s d Hh Hs Hd.
    rewrite self_attention_state_entry by lia.
    destruct (Z.eqb_spec (Z.of_nat s) position); [lia|reflexivity].
Qed.

(** ** Masked attention *)

Section MaskFacts.

Variable fexp : R -> R.
Variable depth : nat.

Lemma attention_mask_autoregressive_entry (length : nat) (query_pos : list Z)
    (q m : nat) :
  (q < length)%nat -> (m < length)%nat ->
  get2 (attention_mask_autoregressive length query_pos) q m =
    if (geti query_pos q <? geti query_pos m)%Z then -1e9 else 0.
Proof.
  intros Hq Hm. unfold attention_mask_autoregressive, get2.
  rewrite row_tab, get1_tab by lia.
  destruct (geti query_pos q <? geti query_pos m)%Z; unfold cast; lra.
Qed.

(** The kernel does not read the memory slots whose logits lie 5e8 below
    the logits of the other slots: two memories that agree on the other
    slots give the same output. *)
Lemma attention_row_hidden (n : nat) (q : list R)
    (k v k' v' : list (list R)) (mask : nat -> R) (hidden : nat -> bool) :
  (forall z, z <= -5e8 -> fexp z = 0) ->
  fexp 0 = 1 -> (forall z, 0 <= fexp z) ->
  (exists j, (j < n)%nat /\ hidden j = false) ->
  (forall j j', (j < n)%nat -> (j' < n)%nat ->
     hidden j = true -> hidden j' = false ->
     slot_logit depth q k (Some mask) j + 5e8
       <= slot_logit depth q k (Some mask) j' /\
     slot_logit depth q k' (Some mask) j + 5e8
       <= slot_logit depth q k' (Some mask) j') ->
  (forall j, (j < n)%nat -> hidden j = false ->
     row k j = row k' j /\ row v j = row v' j) ->
  dot_product_attention_row fexp depth depth n q k v (Some mask) =
  dot_product_attention_row fexp depth depth n q k' v' (Some mask).
Proof.
  intros Hunder Hone Hnonneg (j0 & Hj0 & Hvis0) Hlow Hvisible.
  set (a := slot_logit depth q k (Some mask)).
  set (a' := slot_logit depth q k' (Some mask)).
  assert (0 < n)%nat as Hn by lia.
  assert (forall j, (j < n)%nat -> hidden j = false -> a j = a' j) as Hsame.
  { intros j Hj Hh. unfold a, a', slot_logit, get2.
    destruct (Hvisible j Hj Hh) as [-> _]. reflexivity. }
  destruct (maxR_attained n a' Hn) as (jm & Hjm & Hatt).
  assert (hidden jm = false) as Hvism.
  { destruct (hidden jm) eqn:Hh; [|reflexivity].
    destruct (Hlow jm j0 Hjm Hj0 Hh Hvis0) as [_ Hlow'].
    pose proof (maxR_ub n a' j0 Hj0). fold a' in Hlow'. lra. }
  assert (maxR n a = maxR n a') as Hmax.
  { apply maxR_unique.
    - intros j Hj. destruct (hidden j) eqn:Hh.
      + destruct (Hlow j jm Hj Hjm Hh Hvism) as [Hlow' _].
        fold a in Hlow'. rewrite (Hsame jm Hjm Hvism) in Hlow'. lra.
      + rewrite (Hsame j Hj Hh). apply maxR_ub. exact Hj.
    - exists jm. split; [exact Hjm|]. rewrite (Hsame jm Hjm Hvism).
      exact Hatt. }
  assert (forall j, (j < n)%nat -> hidden j = true ->
            a j <= maxR n a' - 5e8 /\ a' j <= maxR n a' - 5e8) as Hbelow.
  { intros j Hj Hh. destruct (Hlow j jm Hj Hjm Hh Hvism) as [H1 H2].
    fold a in H1. fold a' in H2. rewrite (Hsame jm Hjm Hvism) in H1.
    lra. }
  pose proof (logsumexp_ge_max fexp n a' Hone Hnonneg Hn) as Hge.
  apply attention_row_eq; fold a a'.
  - unfold slots_logsumexp. rewrite Hmax. f_equal. f_equal.
    apply sumR_ext. intros j Hj. destruct (hidden j) eqn:Hh.
    + destruct (Hbelow j Hj Hh). rewrite !Hunder by lra. reflexivity.
    + rewrite (Hsame j Hj Hh). reflexivity.
  - intros d Hd. apply sumR_ext. intros j Hj. destruct (hidden j) eqn:Hh.
    + destruct (Hbelow j Hj Hh). rewrite !Hunder by lra. lra.
    + rewrite (Hsame j Hj Hh). unfold get2.
      destruct (Hvisible j Hj Hh) as [_ ->]. reflexivity.
Qed.

End MaskFacts.

(** With the bias of [attention_mask_autoregressive], logits that lie
    within 2.5e8 of zero and an exponential that is 1 at 0, never negative
    and underflows below -5e8, [dot_product_attention] at a query position
    does not depend on the keys and values of the memory positions after
    it: the softmax is normalised on the positions up to the query, and the
    later ones weigh nothing. *)
Theorem autoregressive_attention_is_causal (fexp : R -> R)
    (depth length : nat) (query_pos : list Z) (i : nat) (q : list R)
    (k v k' v' : list (list R)) :
  (forall z, z <= -5e8 -> fexp z = 0) ->
  fexp 0 = 1 -> (forall z, 0 <= fexp z) ->
  (i < length)%nat ->
  (forall j, (j < length)%nat -> (geti query_pos j <= geti query_pos i)%Z ->
     row k j = row k' j /\ row v j = row v' j) ->
  (forall j, (j < length)%nat ->
     -2.5e8 <= sumR depth (fun c => get1 q c * get2 k j c) <= 2.5e8 /\
     -2.5e8 <= sumR depth (fun c => get1 q c * get2 k' j c) <= 2.5e8) ->
  let mask := attention_mask_autoregressive length query_pos in
  dot_product_attention_row fexp depth depth length q k v
    (Some (fun j => get2 mask i j)) =
  dot_product_attention_row fexp depth depth length q k' v'
    (Some (fun j => get2 mask i j)).
Proof.
  intros Hunder Hone Hnonneg Hi Hpast Hbound mask.
  apply (attention_row_hidden fexp depth length q k v k' v'
           (fun j => get2 mask i j)
           (fun j => (geti query_pos i <? geti query_pos j)%Z)
           Hunder Hone Hnonneg).
  - exists i. split; [exact Hi|]. apply Z.ltb_irrefl.
  - intros j j' Hj Hj' Hlt Hge. unfold slot_logit, mask.
    rewrite !attention_mask_autoregressive_entry by lia.
    rewrite Hlt, Hge.
    destruct (Hbound j Hj) as [Hk Hk'].
    destruct (Hbound j' Hj') as [Hkv Hkv'].
    split; lra.
  - intros j Hj Hge. apply Z.ltb_ge in Hge. apply Hpast; assumption.
Qed.

Lemma autoregressive_attention_is_causal_witness :
  let mask := attention_mask_autoregressive 2 [0%Z; 1%Z] in
  dot_product_attention_row exp_underflow 1 1 2 [1] [[1]; [2]] [[3]; [4]]
    (Some (fun j => get2 mask 0 j)) =
  dot_product_attention_row exp_underflow 1 1 2 [1] [[1]; [5]] [[3]; [6]]
    (Some (fun j => get2 mask 0 j)).
Proof.
  apply (autoregressive_attention_is_causal exp_underflow 1 2 [0%Z; 1%Z] 0
           [1] [[1]; [2]] [[3]; [4]] [[1]; [5]] [[3]; [6]]).
  - exact exp_underflow_spec.
  - exact exp_underflow_one.
  - exact exp_underflow_nonneg.
  - lia.
  - intros j Hj Hle. destruct j as [|[|j]]; [split; reflexivity| |lia].
    unfold geti in Hle. cbn in Hle. lia.
  - intros j Hj. destruct j as [|[|j]]; [| |lia];
      rewrite !sumR_1; unfold get1, get2, get1, row;
      cbn -[IZR Rmult Rle Z.pow_pos]; repeat split; lra.
Defined.

(** ** Dense layers *)

Section DenseFacts.

Lemma filter_keeps_all (P : Dimension -> Prop) `{!forall d, Decision (P d)}
    (l : list Dimension) :
  (forall d, d ∈ l -> P d) -> filter P l = l.
Proof.
  induction l as [|a l IH]; intros Hall; [reflexivity|].
  rewrite filter_cons_True by (apply Hall; left).
  f_equal. apply IH. intros d Hd. apply Hall. right. exact Hd.
Qed.

Lemma dense_last (pre : Shape) (a output_dim : Dimension) :
  a ∉ pre ->
  dense (pre ++ [a]) output_dim None =
    if (dim_size a =? 0)%nat then Raise ZeroDivisionError
    else Ret ([a; output_dim], Rpower (INR (dim_size a)) (-0.5),
              pre ++ [output_dim]).
Proof.
  intros Ha. unfold dense.
  rewrite length_app. cbn [length].
  replace (length pre + 1 - 1)%nat with (length pre) by lia.
  rewrite drop_app_length. unfold bind, Shape.
  rewrite filter_app, filter_keeps_all
    by (intros d Hd Hin; apply list_elem_of_singleton in Hin; subst;
        contradiction).
  rewrite filter_cons_False, filter_nil
    by (intros Hn; apply Hn; apply list_elem_of_singleton; reflexivity).
  rewrite app_nil_r. cbn [fmap list_fmap list_product foldr].
  rewrite Nat.mul_1_r. unfold py_pow, bind.
  destruct (dim_size a =? 0)%nat; reflexivity.
Qed.

End DenseFacts.

(** [dense_relu_dense] on a shape without repeated dimensions, and hidden
    channels that are not a dimension of the input: it fails on a shape of
    rank zero, raises ZeroDivisionError when the last dimension of the input
    or the hidden dimension is empty, and otherwise returns a tensor of the
    shape of its input. *)
Theorem dense_relu_dense_same_shape (x : Shape) (hidden_channels : Dimension) :
  NoDup x -> hidden_channels ∉ x ->
  dense_relu_dense x hidden_channels =
    match last x with
    | None => RaisesIndexError
    | Some io_channels =>
        if ((dim_size io_channels =? 0) || (dim_size hidden_channels =? 0))%nat
        then Raises ZeroDivisionError
        else Returns x
    end.
Proof.
  intros Hnodup Hhidden. unfold dense_relu_dense.
  destruct (last x) as [io|] eqn:Hlast; [|reflexivity].
  apply last_Some in Hlast. destruct Hlast as [pre ->].
  apply NoDup_app in Hnodup. destruct Hnodup as (_ & Hdisj & _).
  assert (io ∉ pre) as Hio
    by (intros Hin; apply (Hdisj io Hin); apply list_elem_of_singleton;
        reflexivity).
  assert (hidden_channels ∉ pre) as Hpre
    by (intros Hin; apply Hhidden; apply elem_of_app; left; exact Hin).
  rewrite (dense_last pre io hidden_channels Hio).
  destruct (dim_size io =? 0)%nat; [reflexivity|].
  rewrite (dense_last pre hidden_channels io Hpre).
  destruct (dim_size hidden_channels =? 0)%nat; reflexivity.
Qed.

Lemma dense_relu_dense_same_shape_witness :
  let x := [mkDim "batch" 2; mkDim "length" 3; mkDim "model" 4] in
  dense_relu_dense x (mkDim "hidden" 8) =
    match last x with
    | None => RaisesIndexError
    | Some io_channels =>
        if ((dim_size io_channels =? 0)
            || (dim_size (mkDim "hidden" 8) =? 0))%nat
        then Raises ZeroDivisionError
        else Returns x
    end.
Proof.
  intros x.
  apply (dense_relu_dense_same_shape x (mkDim "hidden" 8)).
  - apply (bool_decide_unpack _). vm_compute. reflexivity.
  - apply (bool_decide_unpack _). vm_compute. reflexivity.
Defined.
